(** * Instant-runoff voting (irv.py): a shallow embedding and its properties

    The program is Python 2: [map] and [zip] build lists, [/] on ints is
    floor division, [None] compares smaller than every int, and [sorted]
    is a stable sort under the built-in lexicographic order of tuples. *)

From Stdlib Require Import ZArith Lia.
From Stdlib Require Strings.String Strings.Ascii.
From stdpp Require Import base tactics option list numbers strings sorting.

Open Scope Z_scope.

(** ** Exceptions and results *)

Inductive exn := ValueError | KeyError | IndexError | EOFError.

Inductive result (A : Type) : Type :=
  | Ok (a : A)
  | Raise (e : exn).
Arguments Ok {A} a.
Arguments Raise {A} e.

#[global] Instance result_ret : MRet result := fun A a => Ok a.
#[global] Instance result_bind : MBind result := fun A B f m =>
  match m with Ok a => f a | Raise e => Raise e end.
#[global] Instance result_fmap : FMap result := fun A B f m =>
  match m with Ok a => Ok (f a) | Raise e => Raise e end.

(** ** Python's built-in orderings *)

Module PyOrder.

(** A ballot slot: [None] for an abstention, otherwise an int. *)
Abbreviation vote := (option Z).

(** [None < x] for every int [x] (Python 2). *)
Definition cmp_vote (a b : vote) : comparison :=
  match a, b with
  | None, None => Eq
  | None, Some _ => Lt
  | Some _, None => Gt
  | Some x, Some y => Z.compare x y
  end.

(** Sequences compare lexicographically; a proper prefix is smaller. *)
Fixpoint cmp_list {A} (cmp : A → A → comparison) (l k : list A) : comparison :=
  match l, k with
  | [], [] => Eq
  | [], _ :: _ => Lt
  | _ :: _, [] => Gt
  | x :: l', y :: k' =>
      match cmp x y with
      | Eq => cmp_list cmp l' k'
      | c => c
      end
  end.

Definition cmp_pair {A B} (cA : A → A → comparison) (cB : B → B → comparison)
    (p q : A * B) : comparison :=
  match cA p.1 q.1 with
  | Eq => cB p.2 q.2
  | c => c
  end.

Definition leb_of {A} (cmp : A → A → comparison) (x y : A) : bool :=
  match cmp x y with Gt => false | _ => true end.

(** [sorted(l)]: the stable sort.  Inserting from the right keeps equal
    elements in their original order. *)
Fixpoint insert_sorted {A} (cmp : A → A → comparison) (x : A) (l : list A) : list A :=
  match l with
  | [] => [x]
  | y :: l' => if leb_of cmp x y then x :: y :: l' else y :: insert_sorted cmp x l'
  end.

Definition sorted {A} (cmp : A → A → comparison) (l : list A) : list A :=
  foldr (insert_sorted cmp) [] l.

(** [enumerate(l)] *)
Definition enumerate {A} (l : list A) : list (nat * A) := imap (fun i x => (i, x)) l.

End PyOrder.
Import PyOrder.

(** ** Sequence indexing and slicing *)

Module PySeq.

(** [l[i]]: negative indices count from the end; out of range raises. *)
Definition index {A} (l : list A) (i : Z) : result A :=
  let j := if i <? 0 then i + Z.of_nat (length l) else i in
  if j <? 0 then Raise IndexError
  else match l !! Z.to_nat j with
       | Some x => Ok x
       | None => Raise IndexError
       end.

(** The position a slice bound denotes: shifted when negative, then clamped. *)
Definition bound (n : nat) (i : Z) : nat :=
  let j := if i <? 0 then i + Z.of_nat n else i in
  Z.to_nat (Z.min (Z.of_nat n) (Z.max 0 j)).

(** [l[:i]] and [l[i:]] *)
Definition slice_to {A} (l : list A) (i : Z) : list A := take (bound (length l) i) l.
Definition slice_from {A} (l : list A) (i : Z) : list A := drop (bound (length l) i) l.

(** [l.index(x)]: first position holding [x], [ValueError] when absent. *)
Fixpoint find_index `{EqDecision A} (x : A) (l : list A) : result nat :=
  match l with
  | [] => Raise ValueError
  | y :: l' => if decide (y = x) then Ok 0%nat else S <$> find_index x l'
  end.

(** [zip] applied to the unpacked rows: the transpose, cut to the shortest
    row; no rows, no columns. *)
Fixpoint zip_star {A} (rows : list (list A)) : list (list A) :=
  match rows with
  | [] => []
  | r :: rs =>
      match rs with
      | [] => (fun x => [x]) <$> r
      | _ :: _ => zip_with cons r (zip_star rs)
      end
  end.

(** [zip(a, b, c)] *)
Definition zip3 {A B C} (a : list A) (b : list B) (c : list C) : list (A * B * C) :=
  zip (zip a b) c.

End PySeq.

(** ** Ballot normalisation *)

(** [get_rank_order]: line 150 sorts the [(value, position)] pairs, drops
    the abstentions and keeps the positions; the loop then writes rank
    [1, 2, ...] at those positions of an all-[None] list. *)
Definition cmp_vi : vote * nat → vote * nat → comparison :=
  cmp_pair cmp_vote Nat.compare.

Definition rank_indices (l : list vote) : list nat :=
  snd <$> filter (fun p : vote * nat => is_Some p.1)
            (sorted cmp_vi ((fun p : nat * vote => (p.2, p.1)) <$> enumerate l)).

Definition assign_ranks (out : list vote) (indices : list (nat * nat)) : list vote :=
  foldl (fun out (ri : nat * nat) => <[ri.2 := Some (Z.of_nat ri.1 + 1)]> out) out indices.

Definition get_rank_order (l : list vote) : list vote :=
  let indices := rank_indices l in
  let out := replicate (length l) None in
  assign_ranks out (enumerate indices).

(** ** The vote table *)

Definition sum_counts (l : list Z) : Z := foldr Z.add 0 l.

(** No method updates a list in place: [maintain] and its helpers rebind the
    attributes of the object under construction to freshly built lists, and
    [copy] and [with_candidate_eliminated] construct a new object.  A table
    is therefore a value, and a method that sets attributes is a function
    from the old record to the new one. *)
Module VoteTable.
Import PySeq.

Record t := Build {
  votes : list (list vote);       (* one ballot per voter *)
  names : list string;
  N_votes : nat;
  N_candidates : nat;
  counts : list (list Z)          (* per candidate: votes at rank 1, 2, ... *)
}.

Definition votes_by_candidate (self : t) : list (list vote) :=
  zip_star (votes self).

Definition reduce_ranks (self : t) : t :=
  Build (get_rank_order <$> votes self) (names self)
        (N_votes self) (N_candidates self) (counts self).

(** The inner loop of [update_counts].  The dictionary [counter] has the
    keys [1 .. N_candidates] from its creation to its end, so it is kept as
    the list of its values in key order, which is also what line 101 reads
    off; a vote outside the keys is Python's [KeyError]. *)
Fixpoint count_votes (counter : list Z) (col : list vote) : result (list Z) :=
  match col with
  | [] => Ok counter
  | None :: col' => count_votes counter col'
  | Some v :: col' =>
      if (1 <=? v) && (v <=? Z.of_nat (length counter))
      then count_votes (alter Z.succ (Z.to_nat (v - 1)) counter) col'
      else Raise KeyError
  end.

Abbreviation row := (list Z * list vote * string)%type.

Definition cmp_row : row → row → comparison :=
  cmp_pair (cmp_pair (cmp_list Z.compare) (cmp_list cmp_vote)) String.compare.

Definition update_counts (self : t) : result t :=
  counts ← mapM (fun cv : string * list vote =>
                   count_votes (replicate (N_candidates self) 0) cv.2)
                (zip (names self) (votes_by_candidate self));
  match sorted cmp_row (zip3 counts (votes_by_candidate self) (names self)) with
  | [] => Raise ValueError       (* nothing to unpack into three names *)
  | rows =>
      Ok (Build (zip_star ((fun r : row => r.1.2) <$> rows))
                ((fun r : row => r.2) <$> rows)
                (N_votes self) (N_candidates self)
                ((fun r : row => r.1.1) <$> rows))
  end.

Definition maintain (self : t) : result t :=
  let self := Build (votes self) (names self)
                    (length (votes self)) (length (names self)) (counts self) in
  update_counts (reduce_ranks self).

(** [VoteTable(votes, names)] *)
Definition init (votes : list (list vote)) (names : list string) : result t :=
  maintain (Build votes names 0 0 []).

Definition copy (self : t) : result t := init (votes self) (names self).

Definition compute_winner (self : t) : result (option string) :=
  strongest ← index (counts self) (-1);
  first_place ← index strongest 0;
  if first_place >? Z.of_nat (N_votes self) / 2
  then Some <$> index (names self) (-1)
  else Ok None.

Definition check_tied (self : t) : result bool :=
  last ← index (counts self) (-1);
  second ← index (counts self) (-2);
  let counts_equal := bool_decide (last = second) in
  let counts_nonzero := sum_counts last >? 0 in
  Ok (counts_equal && counts_nonzero).

Definition with_candidate_eliminated (self : t) (i : Z) : result t :=
  let votes := votes_by_candidate self in
  let new_votes := slice_to votes i ++ slice_from votes (i + 1) in
  let new_names := slice_to (names self) i ++ slice_from (names self) (i + 1) in
  init (zip_star new_votes) new_names.

(** The two setters replace the ballots and run [maintain] again. *)
Definition set_votes_by_candidate (self : t) (votesT : list (list vote)) : result t :=
  maintain (Build (zip_star votesT) (names self)
                  (N_votes self) (N_candidates self) (counts self)).

Definition set_by_voter (self : t) (votes : list (list vote)) : result t :=
  maintain (Build votes (names self) (N_votes self) (N_candidates self) (counts self)).

End VoteTable.

(** ** Reading the vote file *)

Module Reader.
Import Stdlib.Strings.String Stdlib.Strings.Ascii.

Definition is_space (a : ascii) : bool :=
  let n := nat_of_ascii a in
  (Nat.eqb n 32 || (Nat.leb 9 n && Nat.leb n 13))%bool.

(** [s.split()] *)
Fixpoint split_ws (s : string) : list string :=
  match s with
  | EmptyString => []
  | String a s' =>
      if is_space a then split_ws s'
      else match s' with
           | EmptyString => [String a EmptyString]
           | String b _ =>
               if is_space b then String a EmptyString :: split_ws s'
               else match split_ws s' with
                    | w :: ws => String a w :: ws
                    | [] => [String a EmptyString]
                    end
           end
  end.

(** [s.split(c)] for a one-character separator *)
Fixpoint split_on (c : ascii) (s : string) : list string :=
  match s with
  | EmptyString => [EmptyString]
  | String a s' =>
      if Ascii.eqb a c then EmptyString :: split_on c s'
      else match split_on c s' with
           | w :: ws => String a w :: ws
           | [] => [String a EmptyString]
           end
  end.

(** [s[:-1]] *)
Fixpoint drop_last (s : string) : string :=
  match s with
  | EmptyString => EmptyString
  | String a s' =>
      match s' with
      | EmptyString => EmptyString
      | String _ _ => String a (drop_last s')
      end
  end.

Definition digit_of (a : ascii) : option Z :=
  let n := nat_of_ascii a in
  if (Nat.leb 48 n && Nat.leb n 57)%bool then Some (Z.of_nat (n - 48)) else None.

Fixpoint digits (acc : Z) (s : string) : option Z :=
  match s with
  | EmptyString => Some acc
  | String a s' =>
      match digit_of a with
      | Some d => digits (10 * acc + d) s'
      | None => None
      end
  end.

Definition unsigned (s : string) : result Z :=
  match s with
  | EmptyString => Raise ValueError
  | _ => match digits 0 s with Some z => Ok z | None => Raise ValueError end
  end.

(** [int(s)] on a token without white space: an optional sign and at least
    one decimal digit, [ValueError] otherwise. *)
Definition py_int (s : string) : result Z :=
  match s with
  | String "+"%char s' => unsigned s'
  | String "-"%char s' => Z.opp <$> unsigned s'
  | _ => unsigned s
  end.

Definition int_or_none (s : string) : result vote :=
  z ← py_int s;
  Ok (if z =? 0 then None else Some z).

(** [read_votes]: [first] is what [f.readline()] returned and [lines] what
    [f.readlines()] returned. *)
Definition read_votes (first : string) (lines : list string) : result VoteTable.t :=
  let names := split_on "009"%char (drop_last first) in
  votes ← mapM (fun line => mapM int_or_none (split_ws line)) lines;
  VoteTable.init votes names.

End Reader.

(** ** The ranking driver *)

Module Driver.
Import PySeq.

(** How a round ends: a majority winner, or a last candidate who cannot win. *)
Inductive outcome := Winner (name : string) | Ineligible (name : string).

Definition outcome_name (o : outcome) : string :=
  match o with Winner n => n | Ineligible n => n end.

(** Lines 189-200.  [inputs] holds the values the [input] prompts will
    return, in order; the press-enter pauses, whose result the program
    drops, are not part of it.  Manual mode prints
    [table.names[loser_index]], which raises on a bad index. *)
Definition select_loser (is_automated : bool) (table : VoteTable.t) (inputs : list Z)
    : result (Z * list Z) :=
  if is_automated then
    VoteTable.check_tied table ≫= fun tied : bool =>
    if tied then
      match inputs with
      | [] => Raise EOFError
      | i :: inputs' => Ok (i, inputs')
      end
    else Ok (0, inputs)
  else
    match inputs with
    | [] => Raise EOFError
    | i :: inputs' => _ ← index (VoteTable.names table) i; Ok (i, inputs')
    end.

(** The [while True] loop.  It returns the working table it stopped on,
    the outcome and the unread inputs; [None] when [fuel] iterations were
    not enough. *)
Fixpoint elimination_loop (fuel : nat) (is_automated : bool) (table : VoteTable.t)
    (inputs : list Z) : option (result (VoteTable.t * outcome * list Z)) :=
  match fuel with
  | O => None
  | S fuel' =>
      match VoteTable.compute_winner table with
      | Raise e => Some (Raise e)
      | Ok (Some winner) => Some (Ok (table, Winner winner, inputs))
      | Ok None =>
          if decide (VoteTable.N_candidates table = 1%nat) then
            match VoteTable.names table with
            | [unlucky_soul] => Some (Ok (table, Ineligible unlucky_soul, inputs))
            | _ => Some (Raise ValueError)
            end
          else
            match
              sel ← select_loser is_automated table inputs;
              table' ← VoteTable.with_candidate_eliminated table sel.1;
              Ok (table', sel.2)
            with
            | Raise e => Some (Raise e)
            | Ok (table', inputs') => elimination_loop fuel' is_automated table' inputs'
            end
      end
  end.

Record state := State {
  table : VoteTable.t;
  ranking : list string;
  ineligible_candidates : list string;
  inputs : list Z
}.

(** The table the next round starts from (lines 211-212). *)
Definition next_table (full_table : VoteTable.t) (winner : string) : result VoteTable.t :=
  i ← find_index winner (VoteTable.names full_table);
  VoteTable.with_candidate_eliminated full_table (Z.of_nat i).

(** One pass through the body of [for rank in xrange(N)]. *)
Definition round (fuel : nat) (is_automated : bool) (N rank : nat) (st : state)
    : option (result state) :=
  match VoteTable.copy (table st) with
  | Raise e => Some (Raise e)
  | Ok full_table =>
      match elimination_loop fuel is_automated (table st) (inputs st) with
      | None => None
      | Some (Raise e) => Some (Raise e)
      | Some (Ok (working, o, inputs')) =>
          let ranking' :=
            match o with Winner w => ranking st ++ [w] | Ineligible _ => ranking st end in
          let ineligible' :=
            match o with
            | Winner _ => ineligible_candidates st
            | Ineligible u => ineligible_candidates st ++ [u]
            end in
          if decide (S rank = N) then
            Some (Ok (State working ranking' ineligible' inputs'))
          else
            Some (table' ← next_table full_table (outcome_name o);
                  Ok (State table' ranking' ineligible' inputs'))
      end
  end.

Fixpoint rounds (fuel : nat) (is_automated : bool) (N : nat) (ranks : list nat) (st : state)
    : option (result state) :=
  match ranks with
  | [] => Some (Ok st)
  | rank :: ranks' =>
      match round fuel is_automated N rank st with
      | None => None
      | Some (Raise e) => Some (Raise e)
      | Some (Ok st') => rounds fuel is_automated N ranks' st'
      end
  end.

(** [instant_runoff]: the ranking and the ineligible candidates handed to
    [print_ranking]. *)
Definition instant_runoff (fuel : nat) (table : VoteTable.t) (is_automated : bool)
    (inputs : list Z) : option (result (list string * list string)) :=
  let N := VoteTable.N_candidates table in
  match rounds fuel is_automated N (seq 0 N) (State table [] [] inputs) with
  | None => None
  | Some (Raise e) => Some (Raise e)
  | Some (Ok st) => Some (Ok (ranking st, ineligible_candidates st))
  end.

End Driver.

(** ** Printing the ranking *)

Module Printer.



(** [sep.join(l)] for a one-character separator *)
Fixpoint join (sep : Ascii.ascii) (l : list string) : string :=
  match l with
  | [] => String.EmptyString
  | [x] => x
  | x :: l' => String.append x (String.String sep (join sep l'))
  end.


End Printer.

(** ** Vocabulary of the statements *)

(** [x <= y] in the order a comparison function decides. *)
Definition le_of {A} (cmp : A → A → comparison) (x y : A) : Prop := cmp x y ≠ Gt.

(** The [(value, position)] pairs line 150 sorts, and what is left of the
    sorted list once the abstentions are dropped. *)
Definition tagged (l : list vote) : list (vote * nat) :=
  (fun p : nat * vote => (p.2, p.1)) <$> enumerate l.

Definition ranked (l : list vote) : list (vote * nat) :=
  filter (fun p : vote * nat => is_Some p.1) (sorted cmp_vi (tagged l)).

(** A vote that is a key of a counter with [n] keys. *)
Definition in_keys (n : nat) (v : vote) : Prop :=
  ∀ x, v = Some x → 1 ≤ x ≤ Z.of_nat n.

(** The ballot ranks the candidate in column [i]. *)
Definition expressed (i : nat) (b : list vote) : bool :=
  match b !! i with Some (Some _) => true | _ => false end.

(** The ballot gives the candidate in column [i] rank [r]. *)
Definition ranked_at (i : nat) (r : Z) (b : list vote) : Prop :=
  b !! i = Some (Some r).

#[global] Instance ranked_at_dec i r b : Decision (ranked_at i r b).
Proof. unfold ranked_at. apply _. Defined.

(** Count vectors in non-decreasing lexicographic order. *)
Definition counts_sorted (self : VoteTable.t) : Prop :=
  StronglySorted (le_of (cmp_list Z.compare)) (VoteTable.counts self).

(** Each count vector adds up to the number of ballots that rank its
    candidate. *)
Definition sums_match (self : VoteTable.t) : Prop :=
  ∀ i c, VoteTable.counts self !! i = Some c →
         sum_counts c
         = Z.of_nat (length (filter (fun b => expressed i b = true) (VoteTable.votes self))).

(** A table is valid when its parts agree: the sizes are those of the two
    lists, there is a ballot and a candidate, every ballot has one slot per
    candidate, each count vector is the tally of its column, and the
    candidates are in sorted order. *)
Record valid (self : VoteTable.t) : Prop := Valid {
  valid_N_votes : VoteTable.N_votes self = length (VoteTable.votes self);
  valid_N_candidates : VoteTable.N_candidates self = length (VoteTable.names self);
  valid_ballots : VoteTable.votes self ≠ [];
  valid_roster : VoteTable.names self ≠ [];
  valid_rect :
    Forall (fun b => length b = length (VoteTable.names self)) (VoteTable.votes self);
  valid_counts :
    Forall2 (fun col c =>
               VoteTable.count_votes (replicate (VoteTable.N_candidates self) 0) col = Ok c)
            (VoteTable.votes_by_candidate self) (VoteTable.counts self);
  valid_sorted :
    Sorted (le_of VoteTable.cmp_row)
           (PySeq.zip3 (VoteTable.counts self) (VoteTable.votes_by_candidate self)
                       (VoteTable.names self))
}.

(** The layout of a vote file: names joined by tabs, tokens joined by
    blanks, each line closed by a newline. *)
Definition tab : Ascii.ascii := Ascii.ascii_of_nat 9.
Definition newline : Ascii.ascii := Ascii.ascii_of_nat 10.
Definition blank : Ascii.ascii := Ascii.ascii_of_nat 32.

Definition line_of (sep : Ascii.ascii) (fields : list string) : string :=
  String.append (Printer.join sep fields) (String.String newline String.EmptyString).

(** A token of a ballot line: not empty, no white space inside. *)
Definition token (s : string) : Prop :=
  s ≠ String.EmptyString ∧
  Forall (fun a => Reader.is_space a = false) (String.list_ascii_of_string s).

(** The exceptions a run can end with on a valid table: the input ran out,
    or, in manual mode, the index typed is not one of [table.names]. *)
Definition selector_error (is_automated : bool) (e : exn) : Prop :=
  e = EOFError ∨ (is_automated = false ∧ e = IndexError).

(** A ballot in normal form: the slots that hold a rank hold different
    ranks, all between 1 and the number of such slots. *)
Definition dense (b : list vote) : Prop :=
  NoDup (filter is_Some b) ∧ Forall (in_keys (length (filter is_Some b))) b.

(** What happens to a rank when the slot holding [e] is eliminated: ranks
    below the eliminated one stay, ranks above it move up one place. *)
Definition close_gap (e v : vote) : vote :=
  match e, v with
  | Some ve, Some x => if ve <? x then Some (x - 1) else Some x
  | _, _ => v
  end.

(** A valid table whose ballots are all in normal form. *)
Definition normalised (self : VoteTable.t) : Prop :=
  valid self ∧ Forall dense (VoteTable.votes self).

Module Examples.
Import Stdlib.Strings.Ascii.

(** The five ballots over A, B, C of the end-to-end scenario, and the table
    they build. *)
Definition ballots5 : list (list vote) :=
  [[Some 1; Some 2; Some 3]; [Some 1; Some 3; Some 2]; [Some 2; Some 1; Some 3];
   [Some 3; Some 1; Some 2]; [Some 2; Some 3; Some 1]].

Definition names5 : list string := ["A"; "B"; "C"]%string.

Definition table5 : VoteTable.t :=
  VoteTable.Build
    [[Some 3; Some 2; Some 1]; [Some 2; Some 3; Some 1]; [Some 3; Some 1; Some 2];
     [Some 2; Some 1; Some 3]; [Some 1; Some 3; Some 2]]
    ["C"; "B"; "A"]%string 5 3
    [[1; 2; 2]; [2; 1; 2]; [2; 2; 1]].

(** One ballot, one candidate. *)
Definition table1 : VoteTable.t :=
  VoteTable.Build [[Some 1]] ["A"]%string 1 1 [[1]].

(** Two candidates with the same nonzero count vector: an unbreakable tie. *)
Definition ballots_tied : list (list vote) := [[Some 1; Some 2]; [Some 2; Some 1]].
Definition names_tied : list string := ["A"; "B"]%string.

Definition table_tied : VoteTable.t :=
  VoteTable.Build [[Some 1; Some 2]; [Some 2; Some 1]] ["A"; "B"]%string 2 2
                  [[1; 1]; [1; 1]].

(** Where the first round on [table5] stops in automatic mode: C has been
    eliminated and A has three of the five first places. *)
Definition working5 : VoteTable.t :=
  VoteTable.Build
    [[Some 2; Some 1]; [Some 2; Some 1]; [Some 1; Some 2]; [Some 1; Some 2];
     [Some 2; Some 1]]
    ["B"; "A"]%string 5 2 [[2; 3]; [3; 2]].

(** Lines of a vote file: tokens joined by a separator, then a newline. *)
Fixpoint join (sep : Ascii.ascii) (tokens : list string) : string :=
  match tokens with
  | [] => String.String "010"%char String.EmptyString
  | [tok] => String.append tok (String.String "010"%char String.EmptyString)
  | tok :: tokens' => String.append tok (String.String sep (join sep tokens'))
  end.

Definition header_line : list string → string := join "009"%char.
Definition ballot_line : list string → string := join " "%char.

Definition header_AB : string := header_line ["A"; "B"]%string.

(** A ballot that gives both candidates the preference value 2. *)
Definition lines_duplicate : list string := [ballot_line ["2"; "2"]%string].

(** A second ballot with a single slot under a two-candidate header. *)
Definition lines_ragged : list string :=
  [ballot_line ["1"; "2"]%string; ballot_line ["1"]%string].

(** A ballot with a token that is not a number. *)
Definition lines_non_numeric : list string :=
  [ballot_line ["1"; "2"]%string; ballot_line ["2"; "x"]%string].

End Examples.

(** * Properties *)

(** ** The sort *)

Section Sorting.
Context {A : Type} (cmp : A → A → comparison).
Hypothesis cmp_antisym : ∀ x y, cmp x y = CompOpp (cmp y x).

Local Abbreviation le := (le_of cmp).

Lemma leb_of_true x y : leb_of cmp x y = true ↔ le x y.
Proof. unfold leb_of, le_of. destruct (cmp x y); naive_solver. Qed.

Lemma leb_of_false x y : leb_of cmp x y = false → le y x.
Proof.
  unfold leb_of, le_of. rewrite (cmp_antisym y x).
  destruct (cmp x y); naive_solver.
Qed.

Lemma insert_sorted_perm x l : insert_sorted cmp x l ≡ₚ x :: l.
Proof.
  induction l as [|y l IH]; simpl; [done|].
  destruct (leb_of cmp x y); [done|].
  rewrite IH. apply Permutation_swap.
Qed.

Lemma sorted_perm l : sorted cmp l ≡ₚ l.
Proof.
  induction l as [|x l IH]; simpl; [done|].
  rewrite insert_sorted_perm. by rewrite IH.
Qed.

Lemma insert_sorted_HdRel a x l :
  le a x → HdRel le a l → HdRel le a (insert_sorted cmp x l).
Proof.
  intros Hax Hl. destruct l as [|y l]; simpl.
  - by constructor.
  - destruct (leb_of cmp x y); constructor; [done|].
    by inversion Hl.
Qed.

Lemma insert_sorted_Sorted x l :
  Sorted le l → Sorted le (insert_sorted cmp x l).
Proof.
  induction 1 as [|y l Hl IH Hy]; simpl.
  - repeat constructor.
  - destruct (leb_of cmp x y) eqn:Hxy.
    + apply leb_of_true in Hxy. repeat constructor; done.
    + apply leb_of_false in Hxy. constructor; [done|].
      by apply insert_sorted_HdRel.
Qed.

Lemma sorted_Sorted l : Sorted le (sorted cmp l).
Proof.
  induction l as [|x l IH]; simpl; [constructor|].
  by apply insert_sorted_Sorted.
Qed.

Lemma sorted_length l : length (sorted cmp l) = length l.
Proof. by rewrite sorted_perm. Qed.

Lemma sorted_nil_inv l : sorted cmp l = [] → l = [].
Proof.
  intros H. apply nil_length_inv. by rewrite <- sorted_length, H.
Qed.
End Sorting.

Lemma StronglySorted_lookup {A} (R : relation A) (l : list A) i j x y :
  StronglySorted R l → l !! i = Some x → l !! j = Some y → (i < j)%nat → R x y.
Proof.
  intros Hl. revert i j. induction Hl as [|a l Hl IH Ha]; intros i j Hi Hj Hij.
  - done.
  - destruct j as [|j]; [lia|]. simpl in Hj. destruct i as [|i]; simpl in Hi.
    + simplify_eq. rewrite Forall_forall in Ha. apply Ha.
      by eapply list_elem_of_lookup_2.
    + eapply IH; [done..|lia].
Qed.

(** ** The built-in orders are antisymmetric *)

Lemma cmp_vote_antisym a b : cmp_vote a b = CompOpp (cmp_vote b a).
Proof. destruct a, b; simpl; try done. apply Z.compare_antisym. Qed.

Lemma cmp_list_antisym {A} (cmp : A → A → comparison) :
  (∀ x y, cmp x y = CompOpp (cmp y x)) →
  ∀ l k, cmp_list cmp l k = CompOpp (cmp_list cmp k l).
Proof.
  intros Hc l. induction l as [|x l IH]; intros [|y k]; simpl; try done.
  rewrite (Hc x y). destruct (cmp y x); simpl; auto.
Qed.

Lemma cmp_pair_antisym {A B} (cA : A → A → comparison) (cB : B → B → comparison) :
  (∀ x y, cA x y = CompOpp (cA y x)) →
  (∀ x y, cB x y = CompOpp (cB y x)) →
  ∀ p q, cmp_pair cA cB p q = CompOpp (cmp_pair cA cB q p).
Proof.
  intros HA HB p q. unfold cmp_pair. rewrite (HA p.1 q.1).
  destruct (cA q.1 p.1); simpl; auto.
Qed.

Lemma cmp_vi_antisym p q : cmp_vi p q = CompOpp (cmp_vi q p).
Proof.
  apply cmp_pair_antisym; [apply cmp_vote_antisym|].
  intros x y. apply Nat.compare_antisym.
Qed.

Lemma cmp_row_antisym (p q : VoteTable.row) :
  VoteTable.cmp_row p q = CompOpp (VoteTable.cmp_row q p).
Proof.
  apply cmp_pair_antisym; [|apply String.compare_antisym].
  apply cmp_pair_antisym; apply cmp_list_antisym;
    [intros; apply Z.compare_antisym | apply cmp_vote_antisym].
Qed.

(** ** Ballot normalisation *)

Section Normalisation.
Implicit Types (l : list vote) (i j r : nat).

Lemma rank_indices_ranked l : rank_indices l = snd <$> ranked l.
Proof. done. Qed.

Lemma tagged_lookup l i : tagged l !! i = (fun v => (v, i)) <$> l !! i.
Proof.
  unfold tagged, enumerate. rewrite list_lookup_fmap, list_lookup_imap.
  by destruct (l !! i).
Qed.

Lemma elem_of_tagged l v i : (v, i) ∈ tagged l ↔ l !! i = Some v.
Proof.
  rewrite list_elem_of_lookup. split.
  - intros [k Hk]. rewrite tagged_lookup in Hk.
    destruct (l !! k) eqn:E; simplify_eq/=. done.
  - intros H. exists i. by rewrite tagged_lookup, H.
Qed.

Lemma tagged_snd l : snd <$> tagged l = seq 0 (length l).
Proof.
  apply list_eq. intros i. rewrite list_lookup_fmap, tagged_lookup.
  destruct (l !! i) eqn:E; simpl.
  - symmetry. apply lookup_seq. split; [done|]. by eapply lookup_lt_Some.
  - symmetry. apply lookup_seq_ge. by apply lookup_ge_None.
Qed.

Lemma elem_of_ranked l v i : (v, i) ∈ ranked l ↔ is_Some v ∧ l !! i = Some v.
Proof.
  unfold ranked. rewrite list_elem_of_filter. simpl.
  by rewrite (sorted_perm cmp_vi), elem_of_tagged.
Qed.

Lemma ranked_NoDup l : NoDup (snd <$> ranked l).
Proof.
  apply (sublist_NoDup _ (snd <$> sorted cmp_vi (tagged l))).
  - rewrite (sorted_perm cmp_vi), tagged_snd. apply NoDup_seq.
  - apply fmap_sublist. apply sublist_filter.
Qed.

Lemma rank_indices_NoDup l : NoDup (rank_indices l).
Proof. apply ranked_NoDup. Qed.

Lemma rank_indices_lookup l r i :
  rank_indices l !! r = Some i → ∃ x, l !! i = Some (Some x) ∧ ranked l !! r = Some (Some x, i).
Proof.
  rewrite rank_indices_ranked, list_lookup_fmap.
  destruct (ranked l !! r) as [[v k]|] eqn:E; simpl; [|done].
  intros ?; simplify_eq. apply list_elem_of_lookup_2 in E as H.
  apply elem_of_ranked in H as [[x ->] H]. eauto.
Qed.

Lemma rank_indices_elem l i x :
  l !! i = Some (Some x) →
  ∃ r, rank_indices l !! r = Some i ∧ ranked l !! r = Some (Some x, i).
Proof.
  intros H. assert ((Some x, i) ∈ ranked l) as Hin.
  { apply elem_of_ranked. eauto. }
  apply list_elem_of_lookup_1 in Hin as [r Hr]. exists r. split; [|done].
  by rewrite rank_indices_ranked, list_lookup_fmap, Hr.
Qed.

Lemma length_filter_tagged (g : nat → nat) l :
  length (filter (fun p : vote * nat => is_Some p.1) (imap (fun i v => (v, g i)) l))
  = length (filter is_Some l).
Proof.
  revert g. induction l as [|v l IH]; intros g; [done|].
  rewrite imap_cons, !filter_cons. simpl.
  specialize (IH (g ∘ S)).
  destruct (decide (is_Some v)); simpl; [f_equal|]; exact IH.
Qed.

Lemma rank_indices_length l : length (rank_indices l) = length (filter is_Some l).
Proof.
  rewrite rank_indices_ranked, length_fmap. unfold ranked.
  rewrite (sorted_perm cmp_vi). unfold tagged, enumerate. rewrite fmap_imap.
  apply (length_filter_tagged id).
Qed.

Lemma rank_indices_bound l i : i ∈ rank_indices l → (i < length l)%nat.
Proof.
  intros [r Hr]%list_elem_of_lookup_1.
  apply rank_indices_lookup in Hr as (x & Hx & _). by eapply lookup_lt_Some.
Qed.

(** The order of [(value, position)] pairs is transitive. *)
Lemma le_vi_trans : Transitive (le_of cmp_vi).
Proof.
  intros [a i] [b j] [c k]. unfold le_of, cmp_vi, cmp_pair. simpl.
  destruct a as [a|], b as [b|], c as [c|]; simpl; try done.
  destruct (Z.compare_spec a b), (Z.compare_spec b c), (Z.compare_spec a c);
    try lia; try done.
  destruct (Nat.compare_spec i j), (Nat.compare_spec j k), (Nat.compare_spec i k);
    try lia; try done.
  destruct (Nat.compare_spec i j), (Nat.compare_spec j k), (Nat.compare_spec i k);
    try lia; try done.
Qed.

Lemma ranked_StronglySorted l : StronglySorted (le_of cmp_vi) (ranked l).
Proof.
  unfold ranked.
  assert (StronglySorted (le_of cmp_vi) (sorted cmp_vi (tagged l))) as H.
  { apply Sorted_StronglySorted; [apply le_vi_trans|].
    apply sorted_Sorted, cmp_vi_antisym. }
  induction H as [|p s Hs IH Hp]; [constructor|].
  rewrite filter_cons. destruct (decide _); [|done].
  constructor; [done|]. rewrite Forall_forall in Hp |- *.
  intros q [_ Hq]%list_elem_of_filter. auto.
Qed.

(** What the assignment loop leaves in the output list. *)
Lemma assign_ranks_length out (ix : list (nat * nat)) :
  length (assign_ranks out ix) = length out.
Proof.
  revert out. induction ix as [|p ix IH]; intros out; simpl; [done|].
  unfold assign_ranks in *. simpl. by rewrite IH, length_insert.
Qed.

Lemma assign_ranks_other out (ix : list (nat * nat)) j :
  j ∉ snd <$> ix → assign_ranks out ix !! j = out !! j.
Proof.
  revert out. induction ix as [|p ix IH]; intros out Hj; [done|].
  rewrite fmap_cons, not_elem_of_cons in Hj. destruct Hj as [Hne Hj].
  unfold assign_ranks in *. simpl. rewrite IH by done.
  by apply list_lookup_insert_ne.
Qed.

Lemma assign_ranks_hit out (ix : list (nat * nat)) p rank j :
  NoDup (snd <$> ix) → (j < length out)%nat →
  ix !! p = Some (rank, j) →
  assign_ranks out ix !! j = Some (Some (Z.of_nat rank + 1)).
Proof.
  revert out p. induction ix as [|q ix IH]; intros out p Hnd Hlen Hp; [done|].
  rewrite fmap_cons, NoDup_cons in Hnd. destruct Hnd as [Hq Hnd].
  unfold assign_ranks in *. simpl. destruct p as [|p]; simpl in Hp.
  - simplify_eq. simpl in *.
    fold (assign_ranks (<[j:=Some (Z.of_nat rank + 1)]> out) ix).
    rewrite assign_ranks_other by done.
    by apply list_lookup_insert_eq.
  - eapply IH; [done| |done]. by rewrite length_insert.
Qed.

Lemma enumerate_lookup {A} (k : list A) p : enumerate k !! p = (fun x => (p, x)) <$> k !! p.
Proof. unfold enumerate. apply list_lookup_imap. Qed.

Lemma enumerate_snd {A} (k : list A) : snd <$> enumerate k = k.
Proof.
  apply list_eq. intros p. rewrite list_lookup_fmap, enumerate_lookup.
  by destruct (k !! p).
Qed.

Lemma get_rank_order_length l : length (get_rank_order l) = length l.
Proof. unfold get_rank_order. by rewrite assign_ranks_length, length_replicate. Qed.

Lemma get_rank_order_ranked l r i :
  rank_indices l !! r = Some i →
  get_rank_order l !! i = Some (Some (Z.of_nat r + 1)).
Proof.
  intros Hr. unfold get_rank_order.
  eapply (assign_ranks_hit _ _ r).
  - rewrite enumerate_snd. apply rank_indices_NoDup.
  - rewrite length_replicate. apply rank_indices_bound.
    by eapply list_elem_of_lookup_2.
  - by rewrite enumerate_lookup, Hr.
Qed.

Lemma get_rank_order_abstained l i :
  i ∉ rank_indices l → (i < length l)%nat → get_rank_order l !! i = Some None.
Proof.
  intros Hi Hlen. unfold get_rank_order.
  rewrite assign_ranks_other by by rewrite enumerate_snd.
  by apply lookup_replicate_2.
Qed.

End Normalisation.

Lemma get_rank_order_None l i :
  l !! i = Some None → get_rank_order l !! i = Some None.
Proof.
  intros H. apply get_rank_order_abstained; [|by eapply lookup_lt_Some].
  intros [r Hr]%list_elem_of_lookup_1.
  apply rank_indices_lookup in Hr as (x & Hx & _). congruence.
Qed.

Lemma get_rank_order_Some l i x :
  l !! i = Some (Some x) →
  ∃ r, rank_indices l !! r = Some i ∧ ranked l !! r = Some (Some x, i) ∧
       get_rank_order l !! i = Some (Some (Z.of_nat r + 1)).
Proof.
  intros H. destruct (rank_indices_elem _ _ _ H) as (r & Hr & Hr').
  exists r. repeat split; [done..|]. by apply get_rank_order_ranked.
Qed.

Lemma get_rank_order_Some_inv l i v :
  get_rank_order l !! i = Some (Some v) →
  ∃ r x, rank_indices l !! r = Some i ∧ v = Z.of_nat r + 1 ∧ l !! i = Some (Some x).
Proof.
  intros H. assert (i < length l)%nat as Hi.
  { rewrite <- get_rank_order_length. by eapply lookup_lt_Some. }
  apply lookup_lt_is_Some_2 in Hi as [[x|] Hx].
  - destruct (get_rank_order_Some _ _ _ Hx) as (r & Hr & _ & Hg).
    exists r, x. repeat split; [done| |done]. congruence.
  - apply get_rank_order_None in Hx. congruence.
Qed.

(** Ranks never exceed the number of slots that hold a vote. *)
Lemma get_rank_order_range l i v :
  get_rank_order l !! i = Some (Some v) →
  1 ≤ v ≤ Z.of_nat (length (filter is_Some l)).
Proof.
  intros (r & x & Hr & -> & _)%get_rank_order_Some_inv.
  apply lookup_lt_Some in Hr. rewrite rank_indices_length in Hr. lia.
Qed.

(** C4: [get_rank_order] keeps the length and the abstentions in place,
    hands out exactly the ranks [1 .. k] over the [k] slots that hold a vote,
    each rank once, and a smaller raw value gets a smaller rank (equal raw
    values are ranked by position); the two examples of the docstring and of
    the file format ([0] read as an abstention) evaluate as stated. *)
Theorem get_rank_order_dense_ranks (l : list vote) :
  let k := length (filter is_Some l) in
  length (get_rank_order l) = length l ∧
  (∀ i, get_rank_order l !! i = Some None ↔ l !! i = Some None) ∧
  (∀ v, (∃ i, get_rank_order l !! i = Some (Some v)) ↔ 1 ≤ v ≤ Z.of_nat k) ∧
  (∀ i j v, get_rank_order l !! i = Some (Some v) →
            get_rank_order l !! j = Some (Some v) → i = j) ∧
  (∀ i j a b, l !! i = Some (Some a) → l !! j = Some (Some b) →
              a < b ∨ (a = b ∧ (i < j)%nat) →
              ∃ ra rb, get_rank_order l !! i = Some (Some ra) ∧
                       get_rank_order l !! j = Some (Some rb) ∧ ra < rb) ∧
  get_rank_order [Some 5; Some 1; Some 4] = [Some 3; Some 1; Some 2] ∧
  (get_rank_order <$> mapM Reader.int_or_none ["0"; "2"; "1"]%string)
    = Ok [None; Some 2; Some 1].
Proof.
  intros k. split; [apply get_rank_order_length|].
  split; [|split; [|split; [|split; [|split; reflexivity]]]].
  - intros i. split; [|apply get_rank_order_None].
    intros H. assert (i < length l)%nat as Hi.
    { rewrite <- get_rank_order_length. by eapply lookup_lt_Some. }
    apply lookup_lt_is_Some_2 in Hi as [[x|] Hx]; [|done].
    destruct (get_rank_order_Some _ _ _ Hx) as (r & _ & _ & Hg). congruence.
  - intros v. split.
    + intros [i Hi]. by eapply get_rank_order_range.
    + intros Hv. destruct (lookup_lt_is_Some_2 (rank_indices l) (Z.to_nat (v - 1))) as [i Hi].
      { rewrite rank_indices_length. fold k. lia. }
      exists i. apply get_rank_order_ranked in Hi.
      rewrite Hi. do 2 f_equal. lia.
  - intros i j v (r & x & Hr & -> & _)%get_rank_order_Some_inv
      (r' & x' & Hr' & Heq & _)%get_rank_order_Some_inv.
    assert (r = r') as -> by lia. congruence.
  - intros i j a b Ha Hb Hab.
    destruct (get_rank_order_Some _ _ _ Ha) as (p & _ & Hp & Hga).
    destruct (get_rank_order_Some _ _ _ Hb) as (q & _ & Hq & Hgb).
    eexists _, _. split; [done|]. split; [done|].
    assert (cmp_vi (Some b, j) (Some a, i) = Gt) as Hgt.
    { unfold cmp_vi, cmp_pair. simpl. destruct Hab as [Hlt|[-> Hlt]].
      - by rewrite (proj2 (Z.compare_gt_iff b a)) by lia.
      - rewrite Z.compare_refl. apply Nat.compare_gt_iff. lia. }
    destruct (decide (p < q)%nat) as [|Hge]; [lia|].
    destruct (decide (p = q)) as [->|Hne].
    { rewrite Hp in Hq. simplify_eq. lia. }
    exfalso. assert (q < p)%nat as Hqp by lia.
    by pose proof (StronglySorted_lookup _ _ _ _ _ _
                     (ranked_StronglySorted l) Hq Hp Hqp) as Hle.
Qed.

(** ** Results *)

Lemma mapM_Ok {A B} (f : A → result B) (l : list A) (k : list B) :
  mapM f l = Ok k ↔ Forall2 (fun x y => f x = Ok y) l k.
Proof.
  split.
  - revert k. induction l as [|x l IH]; intros k H; simpl in H.
    + injection H as <-. constructor.
    + destruct (f x) as [y|] eqn:Hy; simpl in H; [|done].
      destruct (mapM f l) as [k'|]; simpl in H; [|done].
      injection H as <-. constructor; auto.
  - induction 1 as [|x y l k Hxy _ IH]; simpl; [done|].
    by rewrite Hxy; simpl; rewrite IH.
Qed.

Lemma mapM_Ok_total {A B} (f : A → result B) (l : list A) :
  Forall (fun x => ∃ y, f x = Ok y) l → ∃ k, mapM f l = Ok k.
Proof.
  induction 1 as [|x l [y Hy] _ [k IH]]; simpl; [by eexists|].
  rewrite Hy; simpl. rewrite IH; simpl. by eexists.
Qed.

Lemma mapM_Raise {A B} (f : A → result B) (l : list A) (e : exn) x :
  x ∈ l → Forall (fun x => ∀ e', f x = Raise e' → e' = e) l →
  (∃ e', f x = Raise e') → mapM f l = Raise e.
Proof.
  intros Hx Hall [e' He']. induction l as [|y l IH]; [by apply elem_of_nil in Hx|].
  apply Forall_cons in Hall as [Hy Hall]. simpl.
  destruct (f y) as [b|e''] eqn:Hfy; simpl.
  - apply elem_of_cons in Hx as [->|Hx]; [congruence|].
    by rewrite IH.
  - f_equal. by apply Hy.
Qed.

Lemma mapM_Raise_inv {A B} (f : A → result B) (l : list A) (e : exn) :
  mapM f l = Raise e → ∃ x, x ∈ l ∧ f x = Raise e.
Proof.
induction l as [|x l IH]; simpl; [done|].
destruct (f x) as [y|e'] eqn:Hx; simpl.
- destruct (mapM f l) as [k|e'']; simpl; [done|].
  intros [= <-]. destruct (IH eq_refl) as (z & Hz & Hfz).
  exists z. split; [by right|done].
- intros [= <-]. exists x. split; [by left|done].
Qed.

(** ** The transpose *)

Section Transpose.
Import PySeq.
Context {A : Type}.
Implicit Types (rows cols : list (list A)).

Lemma zip_star_lookup rows j :
  rows ≠ [] → zip_star rows !! j = mapM (fun r => r !! j) rows.
Proof.
  induction rows as [|r rs IH]; [done|]. intros _.
  destruct rs as [|r' rs].
  - simpl. rewrite list_lookup_fmap. by destruct (r !! j).
  - change (zip_star (r :: r' :: rs)) with (zip_with cons r (zip_star (r' :: rs))).
    rewrite lookup_zip_with, IH by done.
    change (mapM (fun r0 => r0 !! j) (r :: r' :: rs))
      with (x ← r !! j; k ← mapM (fun r0 => r0 !! j) (r' :: rs); mret (x :: k)).
    done.
Qed.

Lemma zip_star_lookup_Some rows j col :
  zip_star rows !! j = Some col →
  Forall2 (fun r y => r !! j = Some y) rows col.
Proof.
  destruct rows as [|r rs]; [done|].
  rewrite zip_star_lookup by done. apply mapM_Some_1.
Qed.

Lemma zip_star_inner_length rows col :
  col ∈ zip_star rows → length col = length rows.
Proof.
  intros [j Hj]%list_elem_of_lookup_1.
  apply zip_star_lookup_Some, Forall2_length in Hj. done.
Qed.

Lemma length_from_lookup {B} (l : list B) n :
  (∀ j, is_Some (l !! j) ↔ (j < n)%nat) → length l = n.
Proof.
  intros H. destruct (decide (length l < n)%nat) as [Hlt|Hge].
  - apply H in Hlt as Hs. apply lookup_lt_is_Some in Hs. lia.
  - destruct (decide (n < length l)%nat) as [Hlt|]; [|lia].
    apply lookup_lt_is_Some, H in Hlt. lia.
Qed.

Lemma zip_star_length rows n :
  rows ≠ [] → Forall (fun r => length r = n) rows → length (zip_star rows) = n.
Proof.
  intros Hne Hall. apply length_from_lookup. intros j.
  rewrite zip_star_lookup, mapM_is_Some by done.
  rewrite Forall_forall in Hall. rewrite Forall_forall. split.
  - intros H. destruct rows as [|r rs]; [done|].
    rewrite <- (Hall r) by left. apply lookup_lt_is_Some. apply H. left.
  - intros Hj r Hr. simpl. apply lookup_lt_is_Some. by rewrite Hall.
Qed.

(** Transposing twice gives the rows back, for a rectangle with at least
    one row and one column. *)
Lemma zip_star_involutive rows n :
  rows ≠ [] → n ≠ 0%nat → Forall (fun r => length r = n) rows →
  zip_star (zip_star rows) = rows.
Proof.
  intros Hne Hn Hall.
  pose proof (zip_star_length rows n Hne Hall) as Hlen.
  assert (zip_star rows ≠ []) as Hne'.
  { intros E. rewrite E in Hlen. simpl in Hlen. lia. }
  apply list_eq. intros i. rewrite zip_star_lookup by done.
  destruct (rows !! i) as [r|] eqn:Hr.
  - apply mapM_Some_2, Forall2_same_length_lookup. split.
    + rewrite Hlen. symmetry. rewrite Forall_forall in Hall. apply Hall.
      by eapply list_elem_of_lookup_2.
    + intros j col y Hcol Hy.
      apply zip_star_lookup_Some in Hcol.
      destruct (Forall2_lookup_l _ _ _ _ _ Hcol Hr) as (y' & Hy' & Hry').
      congruence.
  - apply mapM_None_2. destruct (zip_star rows) as [|c cs] eqn:E; [done|].
    apply Exists_cons_hd. apply lookup_ge_None.
    rewrite (zip_star_inner_length rows c) by (rewrite E; left).
    by apply lookup_ge_None.
Qed.
End Transpose.

(** ** Tallying a column *)

Section Tally.
Import VoteTable.
Implicit Types (counter c : list Z) (col : list vote).

Lemma sum_counts_alter counter i :
  (i < length counter)%nat →
  sum_counts (alter Z.succ i counter) = sum_counts counter + 1.
Proof.
  unfold sum_counts.
  revert i. induction counter as [|x counter IH]; intros i Hi; simpl in *; [lia|].
  destruct i as [|i]; simpl; [lia|].
  specialize (IH i ltac:(lia)). unfold alter in *. lia.
Qed.

Lemma count_votes_Ok counter col c :
  count_votes counter col = Ok c →
  length c = length counter ∧
  sum_counts c = sum_counts counter + Z.of_nat (length (filter is_Some col)) ∧
  Forall (in_keys (length counter)) col.
Proof.
  revert counter. induction col as [|v col IH]; intros counter H; simpl in H.
  - injection H as <-. rewrite filter_nil. simpl. split; [done|]. split; [lia|constructor].
  - destruct v as [x|].
    + destruct (_ && _) eqn:Hx; [|done].
      apply andb_prop in Hx as [H1 H2]. apply Z.leb_le in H1, H2.
      apply IH in H as (Hlen & Hsum & Hall). rewrite length_alter in Hlen, Hall.
      split; [done|]. split.
      * rewrite Hsum, sum_counts_alter by lia.
        rewrite filter_cons_True by done. simpl length. lia.
      * constructor; [|done]. intros ? [= <-]. lia.
    + apply IH in H as (Hlen & Hsum & Hall).
      split; [done|]. split.
      * rewrite filter_cons_False by (by intros [? ?]). done.
      * constructor; [|done]. by intros ? [=].
Qed.

Lemma count_votes_total counter col :
  Forall (in_keys (length counter)) col → ∃ c, count_votes counter col = Ok c.
Proof.
  revert counter. induction col as [|v col IH]; intros counter Hall; simpl.
  - by eexists.
  - apply Forall_cons in Hall as [Hv Hall]. destruct v as [x|].
    + specialize (Hv x eq_refl).
      rewrite (proj2 (Z.leb_le 1 x)), (proj2 (Z.leb_le x _)) by lia. simpl.
      apply IH. by rewrite length_alter.
    + by apply IH.
Qed.

Lemma count_votes_Raise counter col e :
  count_votes counter col = Raise e → e = KeyError.
Proof.
  revert counter. induction col as [|v col IH]; intros counter H; simpl in H; [done|].
  destruct v as [x|]; [|by eapply IH].
  destruct (_ && _); [by eapply IH|]. by injection H.
Qed.

(** Entry [r] of the tally counts the votes at rank [r + 1]. *)
Lemma count_votes_lookup counter col c r :
  count_votes counter col = Ok c →
  c !! r = (fun n => n + Z.of_nat (length (filter (eq (Some (Z.of_nat r + 1))) col)))
             <$> counter !! r.
Proof.
  revert counter. induction col as [|v col IH]; intros counter H; simpl in H.
  - injection H as <-. rewrite filter_nil. simpl.
    destruct (counter !! r); simpl; [f_equal; lia|done].
  - destruct v as [x|].
    + destruct (_ && _) eqn:Hx; [|done].
      apply andb_prop in Hx as [H1 H2]. apply Z.leb_le in H1, H2.
      rewrite (IH _ H), list_lookup_alter.
      destruct (decide (Z.to_nat (x - 1) = r)) as [<-|Hne].
      * rewrite filter_cons_True by (f_equal; lia).
        destruct (counter !! _); simpl; [f_equal; lia|done].
      * rewrite filter_cons_False by (intros [= <-]; lia). done.
    + rewrite (IH _ H). by rewrite filter_cons_False.
Qed.
End Tally.

(** ** Building a table *)

Section Construction.
Import PySeq VoteTable.
Implicit Types (self t : VoteTable.t).

Lemma zip3_projections {A B C} (rows : list (A * B * C)) :
  zip3 ((fun r => r.1.1) <$> rows) ((fun r => r.1.2) <$> rows) ((fun r => r.2) <$> rows)
  = rows.
Proof.
  unfold zip3. induction rows as [|[[a b] c] rows IH]; simpl; [done|].
  by f_equal.
Qed.

Lemma zip3_lookup {A B C} (a : list A) (b : list B) (c : list C) i x y z :
  zip3 a b c !! i = Some (x, y, z) ↔
  a !! i = Some x ∧ b !! i = Some y ∧ c !! i = Some z.
Proof. unfold zip3. rewrite !lookup_zip_Some. simpl. tauto. Qed.

Lemma zip3_drop_first {A B C} (a : list A) (b : list B) (c : list C) :
  (length (zip b c) ≤ length a)%nat →
  (fun r : A * B * C => (r.1.2, r.2)) <$> zip3 a b c = zip b c.
Proof.
  unfold zip3. revert b c.
  induction a as [|x a IH]; intros [|y b] [|z c] Hlen; simpl in *; try done; try lia.
  f_equal. apply IH. lia.
Qed.

(** What a successful construction computed. *)
Lemma init_inv votes0 (names0 : list string) t :
  init votes0 names0 = Ok t →
  ∃ tally,
    Forall2 (fun (cv : string * list vote) c =>
               count_votes (replicate (length names0) 0) cv.2 = Ok c)
            (zip names0 (zip_star (get_rank_order <$> votes0))) tally ∧
    let rows := sorted cmp_row (zip3 tally (zip_star (get_rank_order <$> votes0)) names0) in
    rows ≠ [] ∧
    t = Build (zip_star ((fun r : row => r.1.2) <$> rows))
              ((fun r : row => r.2) <$> rows)
              (length votes0) (length names0)
              ((fun r : row => r.1.1) <$> rows).
Proof.
  unfold init, maintain, update_counts, reduce_ranks, votes_by_candidate. simpl.
  destruct (mapM _ _) as [tally|] eqn:Htally; simpl; [|done].
  apply mapM_Ok in Htally. intros H. exists tally. split; [done|]. simpl.
  destruct (sorted cmp_row _) as [|r rows] eqn:Hrows; [done|].
  split; [done|]. by injection H as <-.
Qed.

(** Any construction that raises does so with [KeyError] (a vote with no
    key in the counter) or [ValueError] (no candidate column). *)
Lemma init_Raise votes0 (names0 : list string) e :
  init votes0 names0 = Raise e → e = KeyError ∨ e = ValueError.
Proof.
  unfold init, maintain, update_counts, reduce_ranks, votes_by_candidate. simpl.
  destruct (mapM _ _) as [tally|e'] eqn:Htally; simpl.
  - destruct (sorted cmp_row _); [|done]. intros [= <-]. by right.
  - intros [= <-]. left. clear -Htally.
    induction (zip names0 _) as [|cv l IH]; simpl in Htally; [done|].
    destruct (count_votes _ _) eqn:Hc; simpl in Htally.
    + destruct (mapM _ l); simpl in Htally; [done|]. injection Htally as <-. by apply IH.
    + injection Htally as <-. by eapply count_votes_Raise.
Qed.

(** The facts every constructed table satisfies, whatever the input. *)
Lemma init_facts votes0 (names0 : list string) t :
  init votes0 names0 = Ok t →
  ∃ tally,
    Forall2 (fun (cv : string * list vote) c =>
               count_votes (replicate (length names0) 0) cv.2 = Ok c)
            (zip names0 (zip_star (get_rank_order <$> votes0))) tally ∧
    zip3 (counts t) (votes_by_candidate t) (names t)
      = sorted cmp_row (zip3 tally (zip_star (get_rank_order <$> votes0)) names0) ∧
    votes0 ≠ [] ∧ names t ≠ [] ∧
    N_votes t = length votes0 ∧ N_candidates t = length names0 ∧
    length (votes t) = length votes0 ∧
    Forall (fun b => length b = length (names t)) (votes t) ∧
    length (counts t) = length (names t) ∧
    length (votes_by_candidate t) = length (names t).
Proof.
  intros (tally & Htally & Hne & ->)%init_inv. exists tally. split; [done|].
  set (cols := zip_star (get_rank_order <$> votes0)) in *.
  set (rows := sorted cmp_row (zip3 tally cols names0)) in *.
  pose proof (sorted_perm cmp_row (zip3 tally cols names0)) as Hperm. fold rows in Hperm.
  assert (votes0 ≠ []) as Hv.
  { intros ->. apply Hne. apply Permutation_nil_r. rewrite Hperm.
    subst cols. unfold zip3. simpl. by destruct tally. }
  assert (Forall (fun col => length col = length votes0)
            ((fun r : row => r.1.2) <$> rows)) as Hcols.
  { apply Forall_fmap, Forall_forall. intros [[c col] nm] Hin. simpl.
    rewrite Hperm in Hin. apply list_elem_of_lookup_1 in Hin as [i Hi].
    apply zip3_lookup in Hi as (_ & Hcol & _).
    apply list_elem_of_lookup_2, zip_star_inner_length in Hcol.
    by rewrite Hcol, length_fmap. }
  assert ((fun r : row => r.1.2) <$> rows ≠ []) as Hcne.
  { by destruct rows. }
  assert (length votes0 ≠ 0%nat) as Hm by by destruct votes0.
  unfold votes_by_candidate. simpl.
  rewrite (zip_star_involutive _ (length votes0)) by done.
  rewrite zip3_projections.
  repeat split; try done.
  - by destruct rows.
  - by apply zip_star_length.
  - apply Forall_forall. intros b Hb.
    apply zip_star_inner_length in Hb. by rewrite Hb, !length_fmap.
  - by rewrite !length_fmap.
  - by rewrite !length_fmap.
Qed.
End Construction.

(** ** Construction from rectangular input *)

Section Validity.
Import PySeq VoteTable.

(** The stored count vectors are the tallies of the stored columns, and the
    stored candidates are in sorted order: for every constructed table. *)
Lemma init_tallied votes0 (names0 : list string) t :
  init votes0 names0 = Ok t →
  Forall2 (fun col c => count_votes (replicate (N_candidates t) 0) col = Ok c)
          (votes_by_candidate t) (counts t) ∧
  Sorted (le_of cmp_row) (zip3 (counts t) (votes_by_candidate t) (names t)) ∧
  zip (votes_by_candidate t) (names t)
    ≡ₚ zip (zip_star (get_rank_order <$> votes0)) names0.
Proof.
  intros Hinit.
  destruct (init_facts _ _ _ Hinit)
    as (tally & Htally & Hrows & _ & _ & _ & HN & _ & _ & Hlc & Hlv).
  pose proof (sorted_perm cmp_row
                (zip3 tally (zip_star (get_rank_order <$> votes0)) names0)) as Hperm.
  rewrite <- Hrows in Hperm. split; [|split].
  - apply Forall2_same_length_lookup. split; [lia|].
    intros i col c Hcol Hc.
    destruct (lookup_lt_is_Some_2 (names t) i) as [nm Hnm].
    { rewrite <- Hlc. by eapply lookup_lt_Some. }
    assert ((c, col, nm) ∈ zip3 (counts t) (votes_by_candidate t) (names t)) as Hin.
    { eapply list_elem_of_lookup_2. by apply zip3_lookup. }
    rewrite Hperm in Hin. apply list_elem_of_lookup_1 in Hin as [j Hj].
    apply zip3_lookup in Hj as (Hc' & Hcol' & Hnm'). rewrite HN.
    assert (zip names0 (zip_star (get_rank_order <$> votes0)) !! j = Some (nm, col)) as Hz.
    { by apply lookup_zip_Some. }
    by apply (Forall2_lookup_lr _ _ _ _ _ _ Htally Hz Hc').
  - rewrite Hrows. apply sorted_Sorted, cmp_row_antisym.
  - rewrite <- (zip3_drop_first (counts t)) by (rewrite length_zip; lia).
    rewrite Hperm. apply reflexive_eq, zip3_drop_first.
    apply Forall2_length in Htally. rewrite <- Htally, !length_zip. lia.
Qed.

Lemma normalised_in_keys (b : list vote) v :
  v ∈ get_rank_order b → in_keys (length b) v.
Proof.
  intros [i Hi]%list_elem_of_lookup_1 x ->.
  apply get_rank_order_range in Hi.
  pose proof (length_filter is_Some b). lia.
Qed.

(** Rectangular input with a ballot and a candidate always builds a table,
    and a valid one, with every candidate kept. *)
Lemma init_valid votes0 (names0 : list string) :
  votes0 ≠ [] → names0 ≠ [] →
  Forall (fun b => length b = length names0) votes0 →
  ∃ t, init votes0 names0 = Ok t ∧ valid t ∧
       N_votes t = length votes0 ∧ N_candidates t = length names0 ∧
       names t ≡ₚ names0.
Proof.
  intros Hv Hn Hrect.
  set (cols := zip_star (get_rank_order <$> votes0)).
  assert (length cols = length names0) as Hlcols.
  { apply zip_star_length; [by destruct votes0|].
    apply Forall_fmap. eapply Forall_impl; [done|]. simpl.
    intros b Hb. by rewrite get_rank_order_length. }
  assert (∃ t, init votes0 names0 = Ok t) as [t Ht].
  { unfold init, maintain, update_counts, reduce_ranks, votes_by_candidate. simpl.
    fold cols.
    destruct (mapM_Ok_total
                (fun cv : string * list vote =>
                   count_votes (replicate (length names0) 0) cv.2)
                (zip names0 cols)) as [tally Htally].
    { apply Forall_forall. intros [nm col] Hin. simpl.
      apply count_votes_total. rewrite length_replicate.
      apply elem_of_zip_r in Hin. apply list_elem_of_lookup_1 in Hin as [j Hj].
      apply zip_star_lookup_Some in Hj.
      apply Forall_forall. intros v Hvin.
      apply list_elem_of_lookup_1 in Hvin as [i Hi].
      destruct (Forall2_lookup_r _ _ _ _ _ Hj Hi) as (r & Hr & Hrj).
      apply list_lookup_fmap_Some in Hr as (b & -> & Hb).
      rewrite Forall_forall in Hrect.
      rewrite <- (Hrect b) by by eapply list_elem_of_lookup_2.
      apply normalised_in_keys. by eapply list_elem_of_lookup_2. }
    rewrite Htally. simpl.
    destruct (sorted cmp_row _) as [|r rows] eqn:Hrows; [|by eexists].
    apply sorted_nil_inv in Hrows. apply mapM_Ok, Forall2_length in Htally.
    apply (f_equal length) in Hrows. unfold zip3 in Hrows.
    rewrite !length_zip in Hrows. rewrite length_zip in Htally. simpl in Hrows.
    exfalso. assert (length names0 ≠ 0%nat) by by destruct names0. lia. }
  exists t. split; [done|].
  destruct (init_facts _ _ _ Ht)
    as (tally & Htally & Hrows & _ & Hnt & HNv & HNc & Hlv & Hr & Hlc & Hlvc).
  destruct (init_tallied _ _ _ Ht) as (Hcounts & Hsorted & Hzip).
  fold cols in Htally, Hrows, Hzip.
  assert (names t ≡ₚ names0) as Hnames.
  { rewrite <- (snd_zip (votes_by_candidate t) (names t)) by lia.
    rewrite Hzip. apply reflexive_eq, snd_zip. lia. }
  split; [|done]. split; try done.
  - congruence.
  - rewrite HNc. by rewrite Hnames.
  - intros E. rewrite E in Hlv. simpl in Hlv. by destruct votes0.
Qed.

End Validity.

(** ** Indexing and slicing *)

Ltac decide_ltb :=
  repeat match goal with
         | |- context [?a <? ?b] =>
             first [ rewrite (proj2 (Z.ltb_lt a b)) by lia
                   | rewrite (proj2 (Z.ltb_ge a b)) by lia ]
         end.

Section Indexing.
Import PySeq.
Context {A : Type}.
Implicit Types (l : list A).

Lemma index_nonneg l (n : nat) x : l !! n = Some x → index l (Z.of_nat n) = Ok x.
Proof.
  intros H. unfold index; cbv zeta.
  decide_ltb. by rewrite Nat2Z.id, H.
Qed.

Lemma index_from_end l (k : nat) x :
  (1 ≤ k ≤ length l)%nat → l !! (length l - k)%nat = Some x →
  index l (- Z.of_nat k) = Ok x.
Proof.
  intros Hk H. unfold index; cbv zeta.
  decide_ltb.
  replace (Z.to_nat (- Z.of_nat k + Z.of_nat (length l))) with (length l - k)%nat by lia.
  by rewrite H.
Qed.

Lemma index_before_start l (k : nat) :
  (length l < k)%nat → index l (- Z.of_nat k) = Raise IndexError.
Proof.
  intros Hk. unfold index; cbv zeta.
  by decide_ltb.
Qed.

Lemma index_Raise l i e : index l i = Raise e → e = IndexError.
Proof.
  unfold index; cbv zeta. destruct (_ <? 0); [by intros [=]|].
  destruct (l !! _); by intros [=].
Qed.

Lemma index_Ok l i x : index l i = Ok x → x ∈ l.
Proof.
  unfold index; cbv zeta. destruct (_ <? 0); [done|].
  destruct (l !! _) eqn:E; intros [=]; subst. by eapply list_elem_of_lookup_2.
Qed.

Lemma bound_in_range n (i : Z) : 0 ≤ i ≤ Z.of_nat n → bound n i = Z.to_nat i.
Proof. intros Hi. unfold bound; cbv zeta. decide_ltb. lia. Qed.

(** Inside the roster the two slices leave out exactly position [i]. *)
Lemma slices_delete l (i : Z) :
  0 ≤ i < Z.of_nat (length l) →
  slice_to l i ++ slice_from l (i + 1) = delete (Z.to_nat i) l.
Proof.
  intros Hi. unfold slice_to, slice_from.
  rewrite !bound_in_range by lia.
  replace (Z.to_nat (i + 1)) with (S (Z.to_nat i)) by lia.
  symmetry. apply delete_take_drop.
Qed.

Lemma slices_subseteq l (i j : Z) : slice_to l i ++ slice_from l j ⊆ l.
Proof.
  intros x [Hx|Hx]%elem_of_app.
  - by eapply subseteq_take.
  - by eapply subseteq_drop.
Qed.

Lemma slices_length {B} l (k : list B) (i j : Z) :
  length l = length k →
  length (slice_to l i ++ slice_from l j) = length (slice_to k i ++ slice_from k j).
Proof.
  intros H. unfold slice_to, slice_from.
  by rewrite !length_app, !length_take, !length_drop, H.
Qed.
End Indexing.

Lemma find_index_Ok `{EqDecision A} (x : A) (l : list A) :
  x ∈ l → ∃ i, PySeq.find_index x l = Ok i ∧ l !! i = Some x.
Proof.
  induction l as [|y l IH]; [by intros ?%elem_of_nil|].
  intros Hx. simpl. destruct (decide (y = x)) as [->|Hne].
  - by exists 0%nat.
  - apply elem_of_cons in Hx as [->|Hx]; [done|].
    destruct (IH Hx) as (i & -> & Hi). by exists (S i).
Qed.

(** ** Valid tables *)

Section ValidTables.
Import PySeq VoteTable.
Implicit Types (t : VoteTable.t).

Lemma valid_columns t :
  valid t →
  length (votes_by_candidate t) = length (names t) ∧
  Forall (fun col => length col = length (votes t)) (votes_by_candidate t).
Proof.
  intros Hv. split.
  - apply zip_star_length; [apply Hv|apply Hv].
  - apply Forall_forall. intros col Hcol. by apply zip_star_inner_length.
Qed.

Lemma valid_counts_length t :
  valid t →
  length (counts t) = length (names t) ∧
  Forall (fun c => length c = length (names t)) (counts t).
Proof.
  intros Hv. pose proof (valid_counts _ Hv) as Hc. split.
  - rewrite <- (Forall2_length _ _ _ Hc). by apply valid_columns.
  - apply Forall_forall. intros c [i Hi]%list_elem_of_lookup_1.
    destruct (Forall2_lookup_r _ _ _ _ _ Hc Hi) as (col & _ & Hcol).
    apply count_votes_Ok in Hcol as (Hlen & _).
    by rewrite Hlen, length_replicate, (valid_N_candidates _ Hv).
Qed.

(** Every rank stored in a valid table is between 1 and the number of
    candidates. *)
Lemma valid_ranks t b v :
  valid t → b ∈ votes t → v ∈ b → in_keys (N_candidates t) v.
Proof.
  intros Hv [k Hk]%list_elem_of_lookup_1 [j Hj]%list_elem_of_lookup_1.
  assert (is_Some (votes_by_candidate t !! j)) as [col Hcol].
  { apply lookup_lt_is_Some. rewrite (proj1 (valid_columns _ Hv)).
    pose proof (valid_rect _ Hv) as Hr. rewrite Forall_forall in Hr.
    rewrite <- (Hr b) by by eapply list_elem_of_lookup_2.
    by eapply lookup_lt_Some. }
  pose proof (zip_star_lookup_Some _ _ _ Hcol) as Hrows.
  destruct (Forall2_lookup_l _ _ _ _ _ Hrows Hk) as (y & Hy & Hby).
  assert (y = v) as -> by congruence.
  destruct (Forall2_lookup_l _ _ _ _ _ (valid_counts _ Hv) Hcol) as (c & _ & Hc).
  apply count_votes_Ok in Hc as (_ & _ & Hall).
  rewrite length_replicate in Hall. rewrite Forall_forall in Hall.
  apply Hall. by eapply list_elem_of_lookup_2.
Qed.

(** Cutting columns out of a valid table, whatever the index: if a column
    is left, the result is built and valid. *)
Lemma eliminated_valid t (i : Z) :
  valid t →
  slice_to (names t) i ++ slice_from (names t) (i + 1) ≠ [] →
  ∃ t', with_candidate_eliminated t i = Ok t' ∧ valid t' ∧
        N_votes t' = N_votes t ∧
        names t' ≡ₚ slice_to (names t) i ++ slice_from (names t) (i + 1).
Proof.
  intros Hv Hne. unfold with_candidate_eliminated.
  set (new_votes := slice_to (votes_by_candidate t) i
                      ++ slice_from (votes_by_candidate t) (i + 1)).
  set (new_names := slice_to (names t) i ++ slice_from (names t) (i + 1)) in *.
  destruct (valid_columns _ Hv) as [Hlen Hcols].
  assert (length new_votes = length new_names) as Hlen'.
  { by apply slices_length. }
  assert (Forall (fun col => length col = length (votes t)) new_votes) as Hcols'.
  { apply Forall_app. split; [by apply Forall_take|by apply Forall_drop]. }
  assert (new_votes ≠ []) as Hne'.
  { intros E. rewrite E in Hlen'. by destruct new_names. }
  assert (length (votes t) ≠ 0%nat) as Hm.
  { pose proof (valid_ballots _ Hv). by destruct (votes t). }
  pose proof (zip_star_length new_votes _ Hne' Hcols') as Hrows.
  destruct (init_valid (zip_star new_votes) new_names) as (t' & Ht' & Hv' & HNv & _ & Hperm).
  - intros E. rewrite E in Hrows. simpl in Hrows. lia.
  - done.
  - apply Forall_forall. intros b Hb.
    apply zip_star_inner_length in Hb. lia.
  - exists t'. split_and!; try done.
    rewrite HNv, Hrows. symmetry. apply Hv.
Qed.

Lemma eliminated_names t (i : Z) t' :
  valid t → with_candidate_eliminated t i = Ok t' →
  valid t' ∧ N_votes t' = N_votes t ∧ names t' ⊆ names t.
Proof.
  intros Hv Ht'.
  destruct (decide (slice_to (names t) i ++ slice_from (names t) (i + 1) = []))
    as [E|Hne].
  - exfalso. unfold with_candidate_eliminated in Ht'. rewrite E in Ht'.
    destruct (valid_columns _ Hv) as [Hlen _].
    pose proof (slices_length (votes_by_candidate t) (names t) i (i + 1) Hlen) as Hl.
    rewrite E in Hl. apply nil_length_inv in Hl. rewrite Hl in Ht'. done.
  - destruct (eliminated_valid t i Hv Hne) as (t'' & Ht'' & Hv' & HN & Hperm).
    assert (t'' = t') as -> by congruence.
    split_and!; try done. rewrite Hperm. apply slices_subseteq.
Qed.

(** With two candidates or more and an index inside the roster, the
    elimination succeeds and removes that one candidate. *)
Lemma eliminated_in_range t (i : Z) :
  valid t → (2 ≤ N_candidates t)%nat → 0 ≤ i < Z.of_nat (N_candidates t) →
  ∃ t', with_candidate_eliminated t i = Ok t' ∧ valid t' ∧
        N_votes t' = N_votes t ∧ S (N_candidates t') = N_candidates t ∧
        names t' ≡ₚ delete (Z.to_nat i) (names t).
Proof.
  intros Hv H2 Hi. rewrite (valid_N_candidates _ Hv) in H2, Hi.
  pose proof (slices_delete (names t) i Hi) as Hdel.
  assert (length (delete (Z.to_nat i) (names t)) = pred (length (names t))) as Hlen.
  { rewrite length_delete; [lia|]. apply lookup_lt_is_Some. lia. }
  destruct (eliminated_valid t i Hv) as (t' & Ht' & Hv' & HN & Hperm).
  { rewrite Hdel. intros E. rewrite E in Hlen. simpl in Hlen. lia. }
  exists t'. rewrite Hdel in Hperm. split_and!; try done.
  rewrite (valid_N_candidates _ Hv'), (valid_N_candidates _ Hv), Hperm, Hlen. lia.
Qed.
End ValidTables.

(** ** The example tables *)

Section ExampleTables.
Import VoteTable Examples.

Lemma table5_init : init ballots5 names5 = Ok table5.
Proof. reflexivity. Qed.

Lemma table1_init : init [[Some 1]] ["A"%string] = Ok table1.
Proof. reflexivity. Qed.

Lemma table_tied_init : init ballots_tied names_tied = Ok table_tied.
Proof. reflexivity. Qed.

(** Validity of a concrete table is a matter of evaluation. *)
Ltac valid_by_evaluation :=
  split;
  [ reflexivity | reflexivity | done | done
  | repeat constructor | repeat constructor | repeat constructor; done ].

Lemma table5_valid : valid table5.
Proof. valid_by_evaluation. Qed.

Lemma table1_valid : valid table1.
Proof. valid_by_evaluation. Qed.

Lemma table_tied_valid : valid table_tied.
Proof. valid_by_evaluation. Qed.
End ExampleTables.

(** ** The candidate order *)

Section CandidateOrder.
Import PySeq VoteTable.

Lemma le_counts_trans : Transitive (le_of (cmp_list Z.compare)).
Proof.
  intros l. induction l as [|a l IH]; intros [|b k] [|c m]; unfold le_of; simpl;
    try done.
  destruct (Z.compare_spec a b), (Z.compare_spec b c), (Z.compare_spec a c);
    try lia; try done.
  apply IH.
Qed.

Lemma zip3_first {A B C} (a : list A) (b : list B) (c : list C) :
  length a = length b → length a = length c →
  (fun r : A * B * C => r.1.1) <$> zip3 a b c = a.
Proof.
  unfold zip3. revert b c.
  induction a as [|x a IH]; intros [|y b] [|z c] Hb Hc; simpl in *; try done.
  f_equal. apply IH; lia.
Qed.

Lemma le_row_counts (p q : row) :
  le_of cmp_row p q → le_of (cmp_list Z.compare) p.1.1 q.1.1.
Proof.
  unfold le_of, cmp_row, cmp_pair.
  destruct (cmp_list Z.compare p.1.1 q.1.1); done.
Qed.

Lemma rows_sorted_counts (cs : list (list Z)) (cols : list (list vote)) (ns : list string) :
  length cs = length cols → length cs = length ns →
  Sorted (le_of cmp_row) (zip3 cs cols ns) →
  StronglySorted (le_of (cmp_list Z.compare)) cs.
Proof.
  intros Hc Hn Hs.
  apply Sorted_StronglySorted; [apply le_counts_trans|].
  rewrite <- (zip3_first cs cols ns) by done.
  eapply Sorted_fmap; [|done]. apply le_row_counts.
Qed.

Lemma init_counts_sorted votes0 (names0 : list string) t :
  init votes0 names0 = Ok t → counts_sorted t.
Proof.
  intros Ht. destruct (init_facts _ _ _ Ht) as (_ & _ & _ & _ & _ & _ & _ & _ & _ & Hc & Hv).
  destruct (init_tallied _ _ _ Ht) as (_ & Hs & _).
  eapply rows_sorted_counts; [|done|done]. lia.
Qed.

Lemma valid_counts_sorted t : valid t → counts_sorted t.
Proof.
  intros Hv. destruct (valid_counts_length _ Hv) as [Hc _].
  destruct (valid_columns _ Hv) as [Hcol _].
  eapply rows_sorted_counts; [| |apply Hv]; lia.
Qed.
End CandidateOrder.

(** C5: every table that [VoteTable(votes, names)] builds keeps its count
    vectors in non-decreasing lexicographic order (first-place counts
    compared first), every earlier candidate being no stronger than every
    later one; each stored count vector is the tally of the stored column at
    the same position, and the stored (column, name) pairs are the input's
    pairs reordered.  A copy and the result of an elimination are built the
    same way and are ordered too. *)
Theorem candidate_order_sorted votes0 (names0 : list string) t :
  VoteTable.init votes0 names0 = Ok t →
  counts_sorted t ∧
  Forall2 (fun col c =>
             VoteTable.count_votes (replicate (VoteTable.N_candidates t) 0) col = Ok c)
          (VoteTable.votes_by_candidate t) (VoteTable.counts t) ∧
  zip (VoteTable.votes_by_candidate t) (VoteTable.names t)
    ≡ₚ zip (PySeq.zip_star (get_rank_order <$> votes0)) names0 ∧
  (∀ t', VoteTable.copy t = Ok t' → counts_sorted t') ∧
  (∀ i t', VoteTable.with_candidate_eliminated t i = Ok t' → counts_sorted t').
Proof.
  intros Ht. destruct (init_tallied _ _ _ Ht) as (Hc & _ & Hz).
  split_and!; try done.
  - by eapply init_counts_sorted.
  - intros t'. apply init_counts_sorted.
  - intros i t'. apply init_counts_sorted.
Qed.

Lemma candidate_order_sorted_witness :
  VoteTable.init Examples.ballots5 Examples.names5 = Ok Examples.table5 ∧
  counts_sorted Examples.table5.
Proof.
  split; [reflexivity|].
  exact (proj1 (candidate_order_sorted Examples.ballots5 Examples.names5
                  Examples.table5 eq_refl)).
Defined.

(** ** Count vectors and ballots *)

Section Sums.
Import PySeq VoteTable.

Lemma Forall2_filter_length {A B} (P : A → Prop) (Q : B → Prop)
    `{∀ x, Decision (P x)} `{∀ y, Decision (Q y)} (l : list A) (k : list B) :
  Forall2 (fun x y => P x ↔ Q y) l k → length (filter P l) = length (filter Q k).
Proof.
induction 1 as [|x y l k Hxy _ IH]; [done|].
rewrite !filter_cons.
destruct (decide (P x)), (decide (Q y)); simpl; try tauto; by rewrite IH.
Qed.

Lemma sum_counts_replicate n : sum_counts (replicate n 0) = 0.
Proof. unfold sum_counts. induction n as [|n IH]; simpl; [done|]. by rewrite IH. Qed.

Lemma column_expressed (rows : list (list vote)) i col :
  Forall2 (fun b y => b !! i = Some y) rows col →
  length (filter (fun b => expressed i b = true) rows) = length (filter is_Some col).
Proof.
intros H. apply Forall2_filter_length.
eapply Forall2_impl; [done|]. simpl. intros b y Hb. unfold expressed. rewrite Hb.
destruct y; split; (done || by intros []).
Qed.

Lemma column_ranked_at (rows : list (list vote)) i r col :
  Forall2 (fun b y => b !! i = Some y) rows col →
  length (filter (ranked_at i r) rows) = length (filter (eq (Some r)) col).
Proof.
intros H. apply Forall2_filter_length.
eapply Forall2_impl; [done|]. simpl. intros b y Hb. unfold ranked_at. rewrite Hb.
naive_solver.
Qed.

Lemma tallied_sums_match t :
  Forall2 (fun col c => count_votes (replicate (N_candidates t) 0) col = Ok c)
          (votes_by_candidate t) (counts t) →
  sums_match t.
Proof.
intros Hc i c Hi.
destruct (Forall2_lookup_r _ _ _ _ _ Hc Hi) as (col & Hcol & Htally).
apply count_votes_Ok in Htally as (_ & Hsum & _).
rewrite Hsum, sum_counts_replicate, Z.add_0_l. f_equal.
symmetry. apply column_expressed. by apply zip_star_lookup_Some.
Qed.

Lemma init_sums_match votes0 (names0 : list string) t :
  init votes0 names0 = Ok t → sums_match t.
Proof. intros Ht. apply tallied_sums_match. by apply init_tallied in Ht as (? & _). Qed.

Lemma valid_sums_match t : valid t → sums_match t.
Proof. intros Hv. apply tallied_sums_match, Hv. Qed.
End Sums.

(** C7: in every table that [VoteTable(votes, names)] builds, the entries of
    a candidate's count vector add up to the number of ballots whose slot for
    that candidate holds a rank; a copy and the result of an elimination are
    built the same way, so it holds for them as well. *)
Theorem count_vector_sum votes0 (names0 : list string) t :
  VoteTable.init votes0 names0 = Ok t →
  sums_match t ∧
  (∀ t', VoteTable.copy t = Ok t' → sums_match t') ∧
  (∀ i t', VoteTable.with_candidate_eliminated t i = Ok t' → sums_match t').
Proof.
intros Ht. split_and!.
- by eapply init_sums_match.
- intros t'. apply init_sums_match.
- intros i t'. apply init_sums_match.
Qed.

Lemma count_vector_sum_witness :
  VoteTable.init [[Some 3; None]; [None; None]; [Some 1; Some 1]] ["A"; "B"]%string
  = Ok (VoteTable.Build [[None; Some 1]; [None; None]; [Some 2; Some 1]]
          ["B"; "A"]%string 3 2 [[0; 1]; [2; 0]]) ∧
  sums_match (VoteTable.Build [[None; Some 1]; [None; None]; [Some 2; Some 1]]
                ["B"; "A"]%string 3 2 [[0; 1]; [2; 0]]).
Proof.
split; [reflexivity|].
exact (proj1 (count_vector_sum [[Some 3; None]; [None; None]; [Some 1; Some 1]]
                ["A"; "B"]%string _ eq_refl)).
Defined.

(** C6, as the code has it: in a valid table with at least two candidates,
    eliminating the candidate at an index inside the roster builds a new
    valid table with one candidate less and as many ballots, whose ranks all
    lie between 1 and the number of candidates left. *)
Theorem with_candidate_eliminated_shrinks t (i : Z) :
  valid t → (2 ≤ VoteTable.N_candidates t)%nat →
  0 ≤ i < Z.of_nat (VoteTable.N_candidates t) →
  ∃ t', VoteTable.with_candidate_eliminated t i = Ok t' ∧ valid t' ∧
        S (VoteTable.N_candidates t') = VoteTable.N_candidates t ∧
        S (length (VoteTable.names t')) = length (VoteTable.names t) ∧
        VoteTable.N_votes t' = VoteTable.N_votes t ∧
        length (VoteTable.votes t') = length (VoteTable.votes t) ∧
        VoteTable.names t' ≡ₚ delete (Z.to_nat i) (VoteTable.names t) ∧
        (∀ b j r, b ∈ VoteTable.votes t' → b !! j = Some (Some r) →
                  1 ≤ r ≤ Z.of_nat (VoteTable.N_candidates t')).
Proof.
intros Hv H2 Hi.
destruct (eliminated_in_range t i Hv H2 Hi) as (t' & Ht' & Hv' & HNv & HNc & Hperm).
exists t'. split_and!; try done.
- by rewrite <- (valid_N_candidates _ Hv'), <- (valid_N_candidates _ Hv).
- by rewrite <- (valid_N_votes _ Hv'), <- (valid_N_votes _ Hv).
- intros b j r Hb Hj.
  eapply (valid_ranks t' b (Some r)); [done|done| |done].
  by eapply list_elem_of_lookup_2.
Qed.

Lemma with_candidate_eliminated_shrinks_witness :
  valid Examples.table5 ∧
  ∃ t', VoteTable.with_candidate_eliminated Examples.table5 1 = Ok t' ∧ valid t' ∧
        S (VoteTable.N_candidates t') = 3%nat ∧
        S (length (VoteTable.names t')) = 3%nat ∧
        VoteTable.N_votes t' = 5%nat ∧
        length (VoteTable.votes t') = 5%nat ∧
        VoteTable.names t' ≡ₚ ["C"; "A"]%string ∧
        (∀ b j r, b ∈ VoteTable.votes t' → b !! j = Some (Some r) →
                  1 ≤ r ≤ Z.of_nat (VoteTable.N_candidates t')).
Proof.
split; [apply table5_valid|].
apply (with_candidate_eliminated_shrinks Examples.table5 1 table5_valid); simpl; lia.
Defined.

(** With a single candidate the elimination does not return a table: no
    column is left, and unpacking the empty [zip] raises [ValueError]. *)
Lemma with_candidate_eliminated_single_counterexample :
  valid Examples.table1 ∧ VoteTable.N_candidates Examples.table1 = 1%nat ∧
  VoteTable.with_candidate_eliminated Examples.table1 0 = Raise ValueError ∧
  ¬ ∃ t', VoteTable.with_candidate_eliminated Examples.table1 0 = Ok t'.
Proof.
split; [apply table1_valid|]. split; [reflexivity|]. split; [reflexivity|].
intros [t' Ht']. vm_compute in Ht'. discriminate.
Qed.

(** ** Winner and tie queries *)

Section Queries.
Import PySeq VoteTable.

Lemma index_last {A} (l : list A) x : last l = Some x → index l (-1) = Ok x.
Proof.
intros H. rewrite last_lookup in H.
apply (index_from_end l 1).
- apply lookup_lt_Some in H. destruct l; simpl in *; lia.
- by replace (length l - 1)%nat with (pred (length l)) by lia.
Qed.

Lemma index_second_last {A} (l : list A) x :
  (2 ≤ length l)%nat → l !! (length l - 2)%nat = Some x → index l (-2) = Ok x.
Proof. intros Hl H. apply (index_from_end l 2); [lia|done]. Qed.

Lemma index_second_last_single {A} (l : list A) :
  (length l < 2)%nat → index l (-2) = Raise IndexError.
Proof. intros Hl. by apply (index_before_start l 2). Qed.

Lemma majority_test (f : Z) (n : nat) :
  (f >? Z.of_nat n / 2) = bool_decide (Z.of_nat n < 2 * f).
Proof.
destruct (Z.gtb_spec f (Z.of_nat n / 2)) as [Hgt|Hle].
- rewrite bool_decide_eq_true_2; [done|]. Z.to_euclidean_division_equations. lia.
- rewrite bool_decide_eq_false_2; [done|]. Z.to_euclidean_division_equations. lia.
Qed.

Lemma le_counts_head (c d : list Z) (x y : Z) :
  le_of (cmp_list Z.compare) c d → c !! 0%nat = Some x → d !! 0%nat = Some y → x ≤ y.
Proof.
destruct c as [|x' c], d as [|y' d]; simpl; try done.
intros Hle [= ->] [= ->]. unfold le_of in Hle. simpl in Hle.
destruct (Z.compare_spec x y); [lia|lia|done].
Qed.

(** Where the strongest candidate sits in a valid table. *)
Lemma valid_strongest t :
  valid t →
  ∃ strongest first_place name,
    last (counts t) = Some strongest ∧ last (names t) = Some name ∧
    strongest !! 0%nat = Some first_place ∧
    length strongest = length (names t).
Proof.
intros Hv. destruct (valid_counts_length _ Hv) as [Hlen Hall].
pose proof (valid_roster _ Hv) as Hne.
assert (length (names t) ≠ 0%nat) as Hn by by destruct (names t).
destruct (lookup_lt_is_Some_2 (counts t) (pred (length (counts t)))) as [s Hs]; [lia|].
destruct (lookup_lt_is_Some_2 (names t) (pred (length (names t)))) as [nm Hnm]; [lia|].
assert (length s = length (names t)) as Hls.
{ rewrite Forall_forall in Hall. apply Hall. by eapply list_elem_of_lookup_2. }
destruct (lookup_lt_is_Some_2 s 0) as [f Hf]; [lia|].
exists s, f, nm. by rewrite !last_lookup.
Qed.
End Queries.

(** C1: in a valid table [compute_winner] returns the name of the strongest
    (last) candidate exactly when twice that candidate's first-place count
    exceeds the number of ballots, abstaining ballots included, and [None]
    otherwise.  The first-place count is the number of ballots that rank the
    candidate first, and no candidate has a larger one, so nobody else has a
    majority when the strongest has none. *)
Theorem compute_winner_majority t :
  valid t →
  ∃ strongest first_place name,
    last (VoteTable.counts t) = Some strongest ∧
    last (VoteTable.names t) = Some name ∧
    strongest !! 0%nat = Some first_place ∧
    first_place
    = Z.of_nat (length (filter (ranked_at (pred (length (VoteTable.names t))) 1)
                               (VoteTable.votes t))) ∧
    VoteTable.compute_winner t
    = Ok (if bool_decide (Z.of_nat (length (VoteTable.votes t)) < 2 * first_place)
          then Some name else None) ∧
    (∀ i c f, VoteTable.counts t !! i = Some c → c !! 0%nat = Some f →
              f ≤ first_place).
Proof.
intros Hv. destruct (valid_strongest t Hv) as (s & f & nm & Hs & Hnm & Hf & Hls).
exists s, f, nm. split_and!; try done.
- rewrite last_lookup in Hs.
  destruct (valid_counts_length _ Hv) as [Hlen _]. rewrite Hlen in Hs.
  destruct (Forall2_lookup_r _ _ _ _ _ (valid_counts _ Hv) Hs) as (col & Hcol & Htally).
  rewrite (count_votes_lookup _ _ _ 0 Htally) in Hf.
  rewrite lookup_replicate_2 in Hf.
  + simpl in Hf. injection Hf as <-. rewrite Z.add_0_l. f_equal. symmetry.
    apply (column_ranked_at _ _ 1). by apply zip_star_lookup_Some.
  + rewrite (valid_N_candidates _ Hv). apply lookup_lt_Some in Hs. lia.
- unfold VoteTable.compute_winner.
  rewrite (index_last _ _ Hs). simpl.
  pose proof (index_nonneg s 0 f Hf) as Hfirst. change (Z.of_nat 0) with 0 in Hfirst.
  rewrite Hfirst. simpl.
  rewrite majority_test, (valid_N_votes _ Hv).
  case_bool_decide; [|done]. by rewrite (index_last _ _ Hnm).
- intros i c f' Hc Hf'.
  rewrite last_lookup in Hs.
  destruct (decide (i = pred (length (VoteTable.counts t)))) as [->|Hne].
  + assert (c = s) as -> by congruence.
    assert (f' = f) as -> by congruence. lia.
  + eapply le_counts_head; [|done|done].
    eapply (StronglySorted_lookup _ _ i (pred (length (VoteTable.counts t))));
      [by apply valid_counts_sorted|done|done|].
    apply lookup_lt_Some in Hc. lia.
Qed.

Lemma compute_winner_majority_witness :
  valid Examples.table5 ∧
  ∃ strongest first_place name,
    last (VoteTable.counts Examples.table5) = Some strongest ∧
    last (VoteTable.names Examples.table5) = Some name ∧
    strongest !! 0%nat = Some first_place ∧
    first_place
    = Z.of_nat (length (filter (ranked_at (pred (length (VoteTable.names Examples.table5))) 1)
                               (VoteTable.votes Examples.table5))) ∧
    VoteTable.compute_winner Examples.table5
    = Ok (if bool_decide (Z.of_nat (length (VoteTable.votes Examples.table5))
                          < 2 * first_place)
          then Some name else None) ∧
    (∀ i c f, VoteTable.counts Examples.table5 !! i = Some c → c !! 0%nat = Some f →
              f ≤ first_place).
Proof.
split; [apply table5_valid|].
exact (compute_winner_majority Examples.table5 table5_valid).
Defined.

(** C3: in a valid table with at least two candidates [check_tied] returns
    [true] exactly when the last two count vectors are equal and their
    entries do not add up to zero. *)
Theorem check_tied_two_strongest t :
  valid t → (2 ≤ VoteTable.N_candidates t)%nat →
  ∃ strongest second,
    VoteTable.counts t !! (VoteTable.N_candidates t - 1)%nat = Some strongest ∧
    VoteTable.counts t !! (VoteTable.N_candidates t - 2)%nat = Some second ∧
    VoteTable.check_tied t
    = Ok (bool_decide (strongest = second ∧ sum_counts strongest ≠ 0)).
Proof.
intros Hv H2. destruct (valid_counts_length _ Hv) as [Hlen _].
rewrite (valid_N_candidates _ Hv) in *. rewrite <- Hlen in *.
destruct (lookup_lt_is_Some_2 (VoteTable.counts t) (length (VoteTable.counts t) - 1))
  as [s Hs]; [lia|].
destruct (lookup_lt_is_Some_2 (VoteTable.counts t) (length (VoteTable.counts t) - 2))
  as [s' Hs']; [lia|].
exists s, s'. split_and!; try done.
unfold VoteTable.check_tied.
rewrite (index_last _ s); [|by rewrite last_lookup, <- Nat.sub_1_r]. simpl.
rewrite (index_second_last _ s') by done. simpl. f_equal.
pose proof (valid_sums_match t Hv _ _ Hs) as Hsum.
destruct (decide (s = s')) as [->|Hne].
- rewrite bool_decide_eq_true_2 by done. simpl.
  destruct (Z.gtb_spec (sum_counts s') 0).
  + rewrite bool_decide_eq_true_2; [done|]. split; [done|lia].
  + rewrite bool_decide_eq_false_2; [done|]. intros [_ ?]. lia.
- rewrite bool_decide_eq_false_2 by done. simpl.
  rewrite bool_decide_eq_false_2; [done|]. by intros [? _].
Qed.

Lemma check_tied_two_strongest_witness :
  valid Examples.table_tied ∧ (2 ≤ VoteTable.N_candidates Examples.table_tied)%nat ∧
  ∃ strongest second,
    VoteTable.counts Examples.table_tied !! 1%nat = Some strongest ∧
    VoteTable.counts Examples.table_tied !! 0%nat = Some second ∧
    VoteTable.check_tied Examples.table_tied
    = Ok (bool_decide (strongest = second ∧ sum_counts strongest ≠ 0)).
Proof.
split; [apply table_tied_valid|]. split; [simpl; lia|].
apply (check_tied_two_strongest Examples.table_tied table_tied_valid).
simpl; lia.
Defined.

(** C10, as the code has it: on a valid table with exactly one candidate
    [check_tied] raises [IndexError], because [counts[-2]] is out of range
    for a sequence of length one; Python's negative indices do not wrap. *)
Theorem check_tied_single_candidate t :
  valid t → VoteTable.N_candidates t = 1%nat →
  VoteTable.check_tied t = Raise IndexError.
Proof.
intros Hv H1. destruct (valid_counts_length _ Hv) as [Hlen _].
rewrite (valid_N_candidates _ Hv) in H1. rewrite H1 in Hlen.
destruct (valid_strongest t Hv) as (s & _ & _ & Hs & _).
unfold VoteTable.check_tied. rewrite (index_last _ _ Hs). simpl.
rewrite index_second_last_single by lia. done.
Qed.

Lemma check_tied_single_candidate_witness :
  valid Examples.table1 ∧ VoteTable.N_candidates Examples.table1 = 1%nat ∧
  VoteTable.check_tied Examples.table1 = Raise IndexError.
Proof.
split; [apply table1_valid|]. split; [reflexivity|].
apply check_tied_single_candidate; [apply table1_valid|reflexivity].
Defined.

(** The single candidate of [table1] has a count vector with a nonzero sum,
    and [check_tied] does not return [true]: it returns nothing. *)
Lemma check_tied_single_counterexample :
  valid Examples.table1 ∧ VoteTable.N_candidates Examples.table1 = 1%nat ∧
  VoteTable.counts Examples.table1 = [[1]] ∧ sum_counts [1] ≠ 0 ∧
  ¬ ∃ b, VoteTable.check_tied Examples.table1 = Ok b.
Proof.
split; [apply table1_valid|]. split_and!; try done.
intros [b Hb]. vm_compute in Hb. discriminate.
Qed.


(** ** Loading a vote file *)

Section Loading.
Import Reader.

Lemma unsigned_Raise s e : unsigned s = Raise e → e = ValueError.
Proof.
unfold unsigned. destruct s; [by intros [= <-]|].
destruct (digits _ _); by intros [=].
Qed.

Lemma py_int_Raise s e : py_int s = Raise e → e = ValueError.
Proof.
unfold py_int. destruct s as [|a s]; [apply unsigned_Raise|].
destruct a as [[] [] [] [] [] [] [] []]; try apply unsigned_Raise.
destruct (unsigned s) eqn:E; simpl; [done|]. intros [= <-]. by eapply unsigned_Raise.
Qed.

Lemma int_or_none_Raise s e : int_or_none s = Raise e → e = ValueError.
Proof.
unfold int_or_none. destruct (py_int s) eqn:E; simpl; [done|].
intros [= <-]. by eapply py_int_Raise.
Qed.

Lemma int_or_none_non_numeric s :
  (∀ z, py_int s ≠ Ok z) → ∃ e, int_or_none s = Raise e.
Proof.
intros H. unfold int_or_none. destruct (py_int s) as [z|e]; [by destruct (H z)|].
by exists e.
Qed.

End Loading.

(** C8, as the code has it: a token that [int] rejects makes [read_votes]
    fail at load time, with Python's [ValueError]. *)
Theorem read_votes_non_numeric (first : string) (lines : list string) line tok :
  line ∈ lines → tok ∈ Reader.split_ws line →
  (∀ z, Reader.py_int tok ≠ Ok z) →
  Reader.read_votes first lines = Raise ValueError.
Proof.
intros Hline Htok Hbad. unfold Reader.read_votes.
rewrite (mapM_Raise _ lines ValueError line); [done|done| |].
- apply Forall_forall. intros l _ e He.
  apply mapM_Raise_inv in He as (x & _ & Hx). by eapply int_or_none_Raise.
- exists ValueError.
  destruct (int_or_none_non_numeric tok Hbad) as [e He].
  apply (mapM_Raise _ _ ValueError tok); [done| |by exists e].
  apply Forall_forall. intros x _ e'. apply int_or_none_Raise.
Qed.

Lemma read_votes_non_numeric_witness :
  Reader.read_votes Examples.header_AB Examples.lines_non_numeric = Raise ValueError.
Proof.
apply (read_votes_non_numeric _ _ (Examples.ballot_line ["2"; "x"]%string) "x"%string).
- vm_compute. right. left.
- vm_compute. right. left.
- intros z. vm_compute. discriminate.
Defined.

(** Neither a repeated preference value nor a short row is rejected: both
    files load.  The repeated value is ranked by position; the short row
    cuts the table down to one column while [N_candidates] stays at two, so
    the table that reaches the engine is not a valid one. *)
Lemma read_votes_unvalidated_counterexample :
  Reader.read_votes Examples.header_AB Examples.lines_duplicate
  = Ok (VoteTable.Build [[Some 2; Some 1]] ["B"; "A"]%string 1 2 [[0; 1]; [1; 0]]) ∧
  Reader.read_votes Examples.header_AB Examples.lines_ragged
  = Ok (VoteTable.Build [[Some 1]; [Some 1]] ["A"]%string 2 2 [[2; 0]]) ∧
  ¬ valid (VoteTable.Build [[Some 1]; [Some 1]] ["A"]%string 2 2 [[2; 0]]).
Proof.
split; [reflexivity|]. split; [reflexivity|].
intros Hv. pose proof (valid_N_candidates _ Hv) as H. simpl in H. lia.
Qed.

(** ** The ranking driver *)

Section Rounds.
Import PySeq VoteTable Driver.

Lemma compute_winner_Some t w : compute_winner t = Ok (Some w) → w ∈ names t.
Proof.
unfold compute_winner.
destruct (index (counts t) (-1)) as [s|]; simpl; [|done].
destruct (index s 0) as [f|]; simpl; [|done].
destruct (f >? _); [|done].
destruct (index (names t) (-1)) as [nm|] eqn:E; simpl; [|done].
intros [= <-]. by eapply index_Ok.
Qed.

Lemma find_index_inv `{EqDecision A} (x : A) (l : list A) i :
  find_index x l = Ok i → l !! i = Some x.
Proof.
revert i. induction l as [|y l IH]; intros i; simpl; [done|].
destruct (decide (y = x)) as [->|Hne]; [by intros [= <-]|].
destruct (find_index x l) as [j|]; simpl; [|done].
intros [= <-]. by apply IH.
Qed.

Lemma copy_valid t :
  valid t →
  ∃ full, copy t = Ok full ∧ valid full ∧
          N_candidates full = N_candidates t ∧ names full ≡ₚ names t.
Proof.
intros Hv. unfold copy.
destruct (init_valid (votes t) (names t)) as (full & Hfull & Hvf & _ & HN & Hperm);
  [apply Hv..|].
exists full. split_and!; try done. by rewrite (valid_N_candidates _ Hv).
Qed.

(** The loop only ever works on valid tables whose candidates come from the
    table it started with, and what it identifies is one of them. *)
Lemma elimination_loop_names fuel is_automated t ins working o ins' :
  valid t →
  elimination_loop fuel is_automated t ins = Some (Ok (working, o, ins')) →
  valid working ∧ names working ⊆ names t ∧ outcome_name o ∈ names working.
Proof.
revert t ins. induction fuel as [|fuel IH]; intros t ins Hv; simpl; [done|].
destruct (compute_winner t) as [[w|]|] eqn:Hw; [| |done].
- intros [= <- <- <-]. split_and!; [done|done|]. by apply compute_winner_Some.
- destruct (decide (N_candidates t = 1%nat)) as [H1|H1].
  + destruct (names t) as [|u [|]] eqn:Hn; [done| |done].
    intros [= <- <- <-]. split_and!; [done|by rewrite Hn|]. rewrite Hn. simpl. by left.
  + destruct (select_loser is_automated t ins) as [[i ins1]|]; simpl; [|done].
    destruct (with_candidate_eliminated t i) as [t1|] eqn:Ht1; simpl; [|done].
    intros Hloop. destruct (eliminated_names t i t1 Hv Ht1) as (Hv1 & _ & Hsub).
    destruct (IH t1 ins1 Hv1 Hloop) as (Hvw & Hsubw & Ho).
    split_and!; [done| |done]. by etrans.
Qed.
(** More fuel never changes what the loop returned. *)
Lemma elimination_loop_fuel fuel fuel' is_automated t ins r :
  (fuel ≤ fuel')%nat →
  elimination_loop fuel is_automated t ins = Some r →
  elimination_loop fuel' is_automated t ins = Some r.
Proof.
revert fuel' t ins. induction fuel as [|fuel IH]; intros fuel' t ins Hle; simpl; [done|].
destruct fuel' as [|fuel']; [lia|]. simpl.
destruct (compute_winner t) as [[w|]|]; [done| |done].
destruct (decide (N_candidates t = 1%nat)); [done|].
destruct (select_loser is_automated t ins) as [[i ins1]|]; simpl; [|done].
destruct (with_candidate_eliminated t i) as [t1|]; simpl; [|done].
apply IH. lia.
Qed.

(** In automatic mode with nothing to read, the loop on a valid table ends
    within as many iterations as there are candidates: each iteration
    returns, stops at an unbreakable tie, or eliminates the weakest. *)
Lemma elimination_loop_automatic_total fuel t :
  valid t → (N_candidates t ≤ fuel)%nat →
  ∃ r, elimination_loop fuel true t [] = Some r.
Proof.
revert t. induction fuel as [|fuel IH]; intros t Hv Hle.
- pose proof (valid_roster _ Hv) as Hne. rewrite (valid_N_candidates _ Hv) in Hle.
  destruct (names t); [done|simpl in Hle; lia].
- simpl. destruct (compute_winner t) as [[w|]|]; [by eexists| |by eexists].
  destruct (decide (N_candidates t = 1%nat)) as [H1|H1].
  { destruct (names t) as [|u [|]]; by eexists. }
  unfold select_loser.
  destruct (check_tied t) as [[]|]; simpl; [by eexists| |by eexists].
  destruct (eliminated_in_range t 0 Hv) as (t1 & Ht1 & Hv1 & _ & HN1 & _).
  { pose proof (valid_roster _ Hv) as Hne. rewrite (valid_N_candidates _ Hv) in *.
    destruct (names t) as [|? [|]]; simpl in *; [done|done|lia]. }
  { pose proof (valid_roster _ Hv) as Hne. rewrite (valid_N_candidates _ Hv).
    destruct (names t); simpl; [done|lia]. }
  rewrite Ht1. simpl. apply IH; [done|lia].
Qed.
End Rounds.

(** C2: take a round of the driver that starts from a valid table and is
    not the last one ([rank + 1 <> N], with as many candidates left as
    ranks still to fill).  If its elimination loop identifies a candidate,
    the round completes, and the roster the next round starts from is the
    starting roster of this round with exactly that candidate removed:
    whatever the loop eliminated on the way is back.  The next table is
    valid again and has one candidate less. *)
Theorem round_isolation fuel is_automated (N rank : nat) st working o ins' :
  valid (Driver.table st) →
  (VoteTable.N_candidates (Driver.table st) + rank = N)%nat →
  S rank ≠ N →
  Driver.elimination_loop fuel is_automated (Driver.table st) (Driver.inputs st)
    = Some (Ok (working, o, ins')) →
  ∃ st',
    Driver.round fuel is_automated N rank st = Some (Ok st') ∧
    VoteTable.names (Driver.table st)
      ≡ₚ Driver.outcome_name o :: VoteTable.names (Driver.table st') ∧
    (∀ c, c ∈ VoteTable.names (Driver.table st) → c ≠ Driver.outcome_name o →
          c ∈ VoteTable.names (Driver.table st')) ∧
    VoteTable.names working ⊆ VoteTable.names (Driver.table st) ∧
    valid (Driver.table st') ∧
    (VoteTable.N_candidates (Driver.table st') + S rank = N)%nat ∧
    Driver.inputs st' = ins' ∧
    match o with
    | Driver.Winner w =>
        Driver.ranking st' = Driver.ranking st ++ [w] ∧
        Driver.ineligible_candidates st' = Driver.ineligible_candidates st
    | Driver.Ineligible u =>
        Driver.ranking st' = Driver.ranking st ∧
        Driver.ineligible_candidates st' = Driver.ineligible_candidates st ++ [u]
    end.
Proof.
intros Hv HN Hrank Hloop.
destruct (copy_valid _ Hv) as (full & Hfull & Hvf & HNf & Hpf).
destruct (elimination_loop_names _ _ _ _ _ _ _ Hv Hloop) as (Hvw & Hsub & Ho).
assert (Driver.outcome_name o ∈ VoteTable.names full) as Hin.
{ rewrite Hpf. by apply Hsub. }
destruct (find_index_Ok _ _ Hin) as (i & Hi & Hlook).
pose proof (valid_roster _ Hv) as Hne. pose proof (valid_N_candidates _ Hv) as Hlen.
assert (VoteTable.N_candidates (Driver.table st) ≠ 0%nat) as Hpos.
{ rewrite Hlen. by destruct (VoteTable.names (Driver.table st)). }
destruct (eliminated_in_range full (Z.of_nat i) Hvf) as (t' & Ht' & Hvt' & _ & HN' & Hp').
{ lia. }
{ apply lookup_lt_Some in Hlook. rewrite (valid_N_candidates _ Hvf). lia. }
rewrite Nat2Z.id in Hp'.
assert (VoteTable.names (Driver.table st)
          ≡ₚ Driver.outcome_name o :: VoteTable.names t') as Hperm.
{ rewrite <- Hpf, Hp'. by apply delete_Permutation. }
eexists (Driver.State t' _ _ ins'). split.
{ unfold Driver.round. rewrite Hfull, Hloop.
  destruct (decide (S rank = N)) as [|_]; [done|].
  unfold Driver.next_table. rewrite Hi. simpl. rewrite Ht'. simpl. done. }
simpl. split_and!; try done.
- intros c Hc Hne'. rewrite Hperm in Hc.
  apply elem_of_cons in Hc as [->|Hc]; done.
- lia.
- by destruct o.
Qed.

Lemma round_isolation_witness :
  valid Examples.table5 ∧
  Driver.elimination_loop 10 true Examples.table5 []
    = Some (Ok (Examples.working5, Driver.Winner "A", [])) ∧
  ∃ st',
    Driver.round 10 true 3 0 (Driver.State Examples.table5 [] [] []) = Some (Ok st') ∧
    VoteTable.names Examples.table5 ≡ₚ "A"%string :: VoteTable.names (Driver.table st') ∧
    "C"%string ∈ VoteTable.names (Driver.table st') ∧
    "C"%string ∉ VoteTable.names Examples.working5.
Proof.
split; [apply table5_valid|]. split; [reflexivity|].
destruct (round_isolation 10 true 3 0 (Driver.State Examples.table5 [] [] [])
            Examples.working5 (Driver.Winner "A") [] table5_valid)
  as (st' & Hround & Hperm & Hback & _); [reflexivity|lia|reflexivity|].
exists st'. split_and!; [done|done| |].
- apply Hback; [|done]. simpl. left.
- simpl. intros Hin. repeat (apply elem_of_cons in Hin as [Hin|Hin]; [done|]).
  by apply elem_of_nil in Hin.
Defined.

(** The end-to-end scenario in automatic mode: a full ranking, nobody
    ineligible, no tie left to break by hand. *)
Example instant_runoff_scenario :
  Driver.instant_runoff 10 Examples.table5 true [] = Some (Ok (["A"; "B"; "C"]%string, [])).
Proof. reflexivity. Qed.

(** C9, what the code does with a selector response outside the roster.
    In manual mode the response 2 on a roster of two raises [IndexError] and
    the run ends there; the valid response behind it is never read.  In
    automatic mode, on a tie, the response 2 leaves the table as it is, and
    the response -1 makes [with_candidate_eliminated] return a table with
    three candidates instead of one. *)
Theorem selector_index_out_of_roster :
  VoteTable.compute_winner Examples.table_tied = Ok None ∧
  VoteTable.check_tied Examples.table_tied = Ok true ∧
  Driver.instant_runoff 10 Examples.table_tied false [2; 0] = Some (Raise IndexError) ∧
  VoteTable.with_candidate_eliminated Examples.table_tied 2 = Ok Examples.table_tied ∧
  (VoteTable.names <$> VoteTable.with_candidate_eliminated Examples.table_tied (-1))
    = Ok ["A"; "B"; "A"]%string.
Proof. split_and!; reflexivity. Qed.

(** * Further properties *)

(** ** Ballots in normal form *)

Section NormalForm.

Lemma NoDup_filter_lookup {A} (P : A → Prop) `{∀ x, Decision (P x)} (l : list A) i j x :
  NoDup (filter P l) → P x → l !! i = Some x → l !! j = Some x → i = j.
Proof.
revert i j. induction l as [|a l IH]; intros i j Hnd HP Hi Hj; [done|].
rewrite filter_cons in Hnd. destruct i as [|i], j as [|j]; simpl in *; simplify_eq.
- done.
- destruct (decide (P x)); [|done]. apply NoDup_cons in Hnd as [Hx _].
  destruct Hx. apply list_elem_of_filter. split; [done|]. by eapply list_elem_of_lookup_2.
- destruct (decide (P x)); [|done]. apply NoDup_cons in Hnd as [Hx _].
  destruct Hx. apply list_elem_of_filter. split; [done|]. by eapply list_elem_of_lookup_2.
- f_equal. apply IH; [|done..]. destruct (decide (P a)); [|done].
  by apply NoDup_cons in Hnd as [_ ?].
Qed.

Lemma lookup_inj_NoDup_filter {A} (P : A → Prop) `{∀ x, Decision (P x)} (l : list A) :
  (∀ i j x, P x → l !! i = Some x → l !! j = Some x → i = j) → NoDup (filter P l).
Proof.
induction l as [|a l IH]; intros Hinj; [constructor|].
rewrite filter_cons.
assert (NoDup (filter P l)) as Hl.
{ apply IH. intros i j x HP Hi Hj.
  assert (S i = S j) by (by eapply Hinj). lia. }
destruct (decide (P a)) as [Ha|]; [|done].
apply NoDup_cons. split; [|done].
intros [_ [j Hj]%list_elem_of_lookup_1]%list_elem_of_filter.
by specialize (Hinj 0%nat (S j) a Ha eq_refl Hj).
Qed.

(** [k] integers between 1 and [k] in strictly increasing order are
    [1, 2, ..., k]. *)
Lemma increasing_range (l : list Z) :
  (∀ p q a b, l !! p = Some a → l !! q = Some b → (p < q)%nat → a < b) →
  Forall (fun v => 1 ≤ v ≤ Z.of_nat (length l)) l →
  ∀ p a, l !! p = Some a → a = Z.of_nat p + 1.
Proof.
intros Hinc Hrange.
assert (∀ p a, l !! p = Some a → Z.of_nat p + 1 ≤ a) as Hlow.
{ induction p as [|p IH]; intros a Ha.
  - rewrite Forall_forall in Hrange.
    apply list_elem_of_lookup_2, Hrange in Ha. lia.
  - destruct (lookup_lt_is_Some_2 l p) as [a' Ha'].
    { apply lookup_lt_Some in Ha. lia. }
    specialize (IH a' Ha'). specialize (Hinc p (S p) a' a Ha' Ha). lia. }
assert (∀ d p a, (p + d + 1 = length l)%nat → l !! p = Some a → a ≤ Z.of_nat p + 1)
  as Hup.
{ induction d as [|d IH]; intros p a Hp Ha.
  - rewrite Forall_forall in Hrange.
    apply list_elem_of_lookup_2, Hrange in Ha. lia.
  - destruct (lookup_lt_is_Some_2 l (S p)) as [a' Ha']; [lia|].
    specialize (IH (S p) a' ltac:(lia) Ha'). specialize (Hinc p (S p) a a' Ha Ha'). lia. }
intros p a Ha. pose proof (Hlow p a Ha).
pose proof (lookup_lt_Some _ _ _ Ha).
specialize (Hup (length l - p - 1)%nat p a ltac:(lia) Ha). lia.
Qed.

Lemma dense_lookup_inj (b : list vote) i j v :
  dense b → b !! i = Some (Some v) → b !! j = Some (Some v) → i = j.
Proof. intros [Hnd _] Hi Hj. by eapply (NoDup_filter_lookup is_Some b i j (Some v)). Qed.

Lemma ranked_length (l : list vote) : length (ranked l) = length (filter is_Some l).
Proof. by rewrite <- rank_indices_length, rank_indices_ranked, length_fmap. Qed.

(** In a dense ballot the sorted votes are the ranks [1, 2, ...] in order. *)
Lemma dense_ranked (b : list vote) p v i :
  dense b → ranked b !! p = Some (v, i) → v = Some (Z.of_nat p + 1).
Proof.
intros Hd Hp.
set (vals := (fun q : vote * nat => default 0 q.1) <$> ranked b).
assert (∀ q x k, ranked b !! q = Some (x, k) →
                 ∃ a, x = Some a ∧ b !! k = Some (Some a) ∧ vals !! q = Some a) as Hel.
{ intros q x k Hq. apply list_elem_of_lookup_2 in Hq as Hin.
  apply elem_of_ranked in Hin as [[a ->] Hk]. exists a. split_and!; [done..|].
  unfold vals. by rewrite list_lookup_fmap, Hq. }
assert (∀ q a, vals !! q = Some a → ∃ k, ranked b !! q = Some (Some a, k)) as Hval.
{ intros q a Hq. unfold vals in Hq. rewrite list_lookup_fmap in Hq.
  destruct (ranked b !! q) as [[x k]|] eqn:E; [|done].
  destruct (Hel _ _ _ E) as (a' & -> & _ & _). simpl in Hq. exists k. congruence. }
destruct (Hel _ _ _ Hp) as (a & -> & Hi & Ha). f_equal.
apply (increasing_range vals); [| |done].
- intros q q' x y Hx Hy Hlt.
  destruct (Hval _ _ Hx) as [k Hk]. destruct (Hval _ _ Hy) as [k' Hk'].
  pose proof (StronglySorted_lookup _ _ _ _ _ _
                (ranked_StronglySorted b) Hk Hk' Hlt) as Hle.
  unfold le_of, cmp_vi, cmp_pair in Hle. simpl in Hle.
  destruct (Z.compare_spec x y) as [->| |]; [|done|done].
  exfalso. destruct (Hel _ _ _ Hk) as (? & [= <-] & Hbk & _).
  destruct (Hel _ _ _ Hk') as (? & [= <-] & Hbk' & _).
  assert (k = k') as -> by by eapply dense_lookup_inj.
  assert (q = q'); [|lia].
  apply (NoDup_lookup (snd <$> ranked b) q q' k'); [apply ranked_NoDup|..].
  + by rewrite list_lookup_fmap, Hk.
  + by rewrite list_lookup_fmap, Hk'.
- apply Forall_forall. intros x [q Hq]%list_elem_of_lookup_1.
  destruct (Hval _ _ Hq) as [k Hk]. destruct (Hel _ _ _ Hk) as (? & [= <-] & Hbk & _).
  destruct Hd as [_ Hr]. rewrite Forall_forall in Hr.
  unfold vals. rewrite length_fmap, ranked_length.
  apply (Hr (Some x)); [|done]. by eapply list_elem_of_lookup_2.
Qed.

(** Normalising a dense ballot changes nothing. *)
Lemma dense_fixed (b : list vote) : dense b → get_rank_order b = b.
Proof.
intros Hd. apply list_eq. intros i.
destruct (b !! i) as [[v|]|] eqn:Hi.
- destruct (get_rank_order_Some _ _ _ Hi) as (r & _ & Hr & ->).
  apply (dense_ranked _ _ _ _ Hd) in Hr. congruence.
- by apply get_rank_order_None.
- apply lookup_ge_None. rewrite get_rank_order_length. by apply lookup_ge_None.
Qed.

Lemma get_rank_order_is_Some (l : list vote) :
  Forall2 (fun x y : vote => is_Some x ↔ is_Some y) (get_rank_order l) l.
Proof.
apply Forall2_same_length_lookup. split; [apply get_rank_order_length|].
intros i x y Hx Hy. destruct y as [y|].
- destruct (get_rank_order_Some _ _ _ Hy) as (r & _ & _ & Hr).
  rewrite Hr in Hx. injection Hx as <-. split; by eexists.
- rewrite (get_rank_order_None _ _ Hy) in Hx. by injection Hx as <-.
Qed.

(** The result of normalising is dense. *)
Lemma get_rank_order_dense (l : list vote) : dense (get_rank_order l).
Proof.
split.
- apply lookup_inj_NoDup_filter. intros i j x [v ->] Hi Hj.
  apply get_rank_order_Some_inv in Hi as (r & _ & Hr & -> & _).
  apply get_rank_order_Some_inv in Hj as (r' & _ & Hr' & Heq & _).
  assert (r = r') as -> by lia. congruence.
- rewrite (Forall2_filter_length _ _ _ _ (get_rank_order_is_Some l)).
  apply Forall_forall. intros v [i Hi]%list_elem_of_lookup_1 x ->.
  by eapply get_rank_order_range.
Qed.

Lemma dense_Permutation (b b' : list vote) : b ≡ₚ b' → dense b → dense b'.
Proof. intros Hp [Hnd Hr]. split; by rewrite <- Hp. Qed.
End NormalForm.

(** X1: normalising twice is normalising once, and the ballots that
    [get_rank_order] leaves unchanged are exactly the dense ones: those whose
    ranked slots hold different ranks, all between 1 and their number. *)
Theorem get_rank_order_idempotent (l : list vote) :
  get_rank_order (get_rank_order l) = get_rank_order l ∧
  (get_rank_order l = l ↔ dense l).
Proof.
split.
- apply dense_fixed, get_rank_order_dense.
- split.
  + intros <-. apply get_rank_order_dense.
  + apply dense_fixed.
Qed.

(** ** Tables in normal form *)

Section NormalTables.
Import PySeq VoteTable.

Lemma zip_star_row {A} (rows : list (list A)) j (d : A) :
  rows ≠ [] → Forall (fun r => (j < length r)%nat) rows →
  zip_star rows !! j = Some ((fun r => default d (r !! j)) <$> rows).
Proof.
intros Hne Hall. rewrite zip_star_lookup by done.
apply mapM_Some_2. apply Forall2_fmap_r, Forall_Forall2_diag.
eapply Forall_impl; [done|]. simpl. intros r Hr.
apply lookup_lt_is_Some_2 in Hr as [x Hx]. by rewrite Hx.
Qed.

Lemma zip3_second {A B C} (a : list A) (b : list B) (c : list C) :
  length a = length b → length a = length c →
  (fun r : A * B * C => r.1.2) <$> zip3 a b c = b.
Proof.
unfold zip3. revert b c.
induction a as [|x a IH]; intros [|y b] [|z c] Hb Hc; simpl in *; try done.
f_equal. apply IH; lia.
Qed.

Lemma zip3_third {A B C} (a : list A) (b : list B) (c : list C) :
  length a = length b → length a = length c →
  (fun r : A * B * C => r.2) <$> zip3 a b c = c.
Proof.
unfold zip3. revert b c.
induction a as [|x a IH]; intros [|y b] [|z c] Hb Hc; simpl in *; try done.
f_equal. apply IH; lia.
Qed.

(** Sorting a sorted list returns it. *)
Lemma sorted_of_Sorted {A} (cmp : A → A → comparison) (l : list A) :
  Sorted (le_of cmp) l → sorted cmp l = l.
Proof.
induction 1 as [|x l Hl IH Hx]; simpl; [done|]. rewrite IH.
destruct Hx as [|y l Hxy]; simpl; [done|].
by rewrite (proj2 (leb_of_true cmp x y)).
Qed.

Lemma fixed_fmap {A} (f : A → A) (l : list A) : Forall (fun x => f x = x) l → f <$> l = l.
Proof. induction 1 as [|x l Hx _ IH]; [done|]. rewrite fmap_cons. by f_equal. Qed.

(** Rows of a transpose, when the columns are reordered, are reordered the
    same way. *)
Lemma zip_star_rows_Permutation {A} (cols1 cols2 : list (list A)) (d : A) m :
  cols1 ≡ₚ cols2 → cols1 ≠ [] → Forall (fun c => length c = m) cols1 →
  Forall2 (≡ₚ) (zip_star cols1) (zip_star cols2).
Proof.
intros Hp Hne Hall.
assert (cols2 ≠ []) as Hne2.
{ intros ->. by apply Permutation_nil_r in Hp. }
assert (Forall (fun c => length c = m) cols2) as Hall2 by by rewrite <- Hp.
apply Forall2_same_length_lookup. split.
{ by rewrite (zip_star_length cols1 m), (zip_star_length cols2 m). }
intros i r1 r2 H1 H2.
assert (i < m)%nat as Hi.
{ rewrite <- (zip_star_length cols1 m) by done. by eapply lookup_lt_Some. }
rewrite (zip_star_row cols1 i d) in H1; [|done|].
2:{ eapply Forall_impl; [done|]. simpl. lia. }
rewrite (zip_star_row cols2 i d) in H2; [|done|].
2:{ eapply Forall_impl; [done|]. simpl. lia. }
simplify_eq. by rewrite Hp.
Qed.

(** Rectangular input builds a table in normal form. *)
Lemma init_normalised votes0 (names0 : list string) t :
  votes0 ≠ [] → names0 ≠ [] →
  Forall (fun b => length b = length names0) votes0 →
  init votes0 names0 = Ok t → normalised t.
Proof.
intros Hv Hn Hrect Ht.
destruct (init_valid _ _ Hv Hn Hrect) as (t' & Ht' & Hvalid & _ & HNc & _).
assert (t' = t) as -> by congruence. split; [done|].
destruct (init_tallied _ _ _ Ht) as (_ & _ & Hzip).
destruct (valid_columns _ Hvalid) as [Hlc Hcols].
set (V := get_rank_order <$> votes0) in *.
assert (V ≠ []) as HV by (unfold V; by destruct votes0).
assert (length names0 ≠ 0%nat) as Hn0 by by destruct names0.
assert (Forall (fun r => length r = length names0) V) as HVrect.
{ apply Forall_fmap. eapply Forall_impl; [done|]. simpl.
  intros b Hb. by rewrite get_rank_order_length. }
assert (length (zip_star V) = length names0) as Hlen by by apply zip_star_length.
assert (votes_by_candidate t ≡ₚ zip_star V) as Hperm.
{ rewrite <- (fst_zip (votes_by_candidate t) (names t)) by lia.
  rewrite Hzip. apply reflexive_eq, fst_zip. lia. }
assert (votes t = zip_star (votes_by_candidate t)) as Hvotes.
{ symmetry. apply (zip_star_involutive _ (length (names t))); [apply Hvalid| |apply Hvalid].
  pose proof (valid_roster _ Hvalid). by destruct (names t). }
assert (Forall2 (≡ₚ) (votes t) V) as Hrows.
{ rewrite Hvotes. rewrite <- (zip_star_involutive V (length names0)) by done.
  apply (zip_star_rows_Permutation _ _ None (length (votes t))); [done| |done].
  pose proof (valid_roster _ Hvalid). intros E. rewrite E in Hlc.
  by destruct (names t). }
apply Forall_forall. intros b [i Hi]%list_elem_of_lookup_1.
destruct (Forall2_lookup_l _ _ _ _ _ Hrows Hi) as (r & Hr & Hbr).
apply (dense_Permutation r); [done|].
unfold V in Hr. apply list_lookup_fmap_Some in Hr as (b0 & -> & _).
apply get_rank_order_dense.
Qed.

(** What a construction returns, given the tallies and the sorted rows. *)
Lemma init_Ok votes0 (names0 : list string) tally rows :
  mapM (fun cv : string * list vote =>
          count_votes (replicate (length names0) 0) cv.2)
       (zip names0 (zip_star (get_rank_order <$> votes0))) = Ok tally →
  sorted cmp_row (zip3 tally (zip_star (get_rank_order <$> votes0)) names0) = rows →
  rows ≠ [] →
  init votes0 names0
  = Ok (Build (zip_star ((fun r : row => r.1.2) <$> rows))
              ((fun r : row => r.2) <$> rows)
              (length votes0) (length names0)
              ((fun r : row => r.1.1) <$> rows)).
Proof.
unfold init, maintain, update_counts, reduce_ranks, votes_by_candidate. simpl.
intros -> Hrows Hne. simpl. rewrite Hrows. by destruct rows.
Qed.

(** Rebuilding a table in normal form from its own ballots and names gives
    the table back. *)
Lemma init_own t : normalised t → init (votes t) (names t) = Ok t.
Proof.
intros [Hv Hd].
destruct (valid_columns _ Hv) as [Hlc _].
destruct (valid_counts_length _ Hv) as [Hlen _].
assert (get_rank_order <$> votes t = votes t) as Hfix.
{ apply fixed_fmap. eapply Forall_impl; [done|]. apply dense_fixed. }
assert (length (names t) ≠ 0%nat) as Hn.
{ pose proof (valid_roster _ Hv). by destruct (names t). }
rewrite (init_Ok (votes t) (names t) (counts t)
           (zip3 (counts t) (votes_by_candidate t) (names t))).
- rewrite zip3_first, zip3_second, zip3_third by lia.
  unfold votes_by_candidate.
  rewrite (zip_star_involutive _ (length (names t))); [|apply Hv|done|apply Hv].
  rewrite <- (valid_N_votes _ Hv), <- (valid_N_candidates _ Hv). by destruct t.
- rewrite Hfix. fold (votes_by_candidate t).
  apply mapM_Ok, Forall2_same_length_lookup. split.
  { rewrite length_zip. lia. }
  intros i [nm col] c [_ Hcol]%lookup_zip_Some Hc. simpl in *.
  rewrite <- (valid_N_candidates _ Hv).
  by apply (Forall2_lookup_lr _ _ _ _ _ _ (valid_counts _ Hv) Hcol Hc).
- rewrite Hfix. fold (votes_by_candidate t).
  apply sorted_of_Sorted, Hv.
- intros E. apply (f_equal length) in E. unfold zip3 in E. rewrite !length_zip in E.
  simpl in E. lia.
Qed.

Lemma eliminated_normalised t (i : Z) t' :
  valid t → with_candidate_eliminated t i = Ok t' → normalised t'.
Proof.
intros Hv Ht'. unfold with_candidate_eliminated in Ht'.
set (new_votes := slice_to (votes_by_candidate t) i
                    ++ slice_from (votes_by_candidate t) (i + 1)) in *.
set (new_names := slice_to (names t) i ++ slice_from (names t) (i + 1)) in *.
destruct (valid_columns _ Hv) as [Hlen Hcols].
assert (length new_votes = length new_names) as Hlen' by by apply slices_length.
destruct (decide (new_names = [])) as [E|Hne].
{ rewrite E in *. apply nil_length_inv in Hlen'. by rewrite Hlen' in Ht'. }
assert (new_votes ≠ []) as Hne'.
{ intros E. rewrite E in Hlen'. by destruct new_names. }
assert (Forall (fun col => length col = length (votes t)) new_votes) as Hcols'.
{ apply Forall_app. split; [by apply Forall_take|by apply Forall_drop]. }
pose proof (zip_star_length new_votes _ Hne' Hcols') as Hrows.
apply (init_normalised (zip_star new_votes) new_names); [|done| |done].
- intros E. rewrite E in Hrows. simpl in Hrows.
  pose proof (valid_ballots _ Hv). by destruct (votes t).
- apply Forall_forall. intros b Hb. apply zip_star_inner_length in Hb. lia.
Qed.
End NormalTables.

(** X2: construction from rectangular input (at least one ballot and one
    candidate, one slot per candidate on every ballot) gives a valid table
    whose ballots are all dense, and so does every elimination that
    succeeds on it. *)
Theorem tables_normalised votes0 (names0 : list string) t :
  votes0 ≠ [] → names0 ≠ [] →
  Forall (fun b => length b = length names0) votes0 →
  VoteTable.init votes0 names0 = Ok t →
  normalised t ∧
  ∀ i t', VoteTable.with_candidate_eliminated t i = Ok t' → normalised t'.
Proof.
intros Hv Hn Hrect Ht.
pose proof (init_normalised _ _ _ Hv Hn Hrect Ht) as Hnorm.
split; [done|]. intros i t'. apply eliminated_normalised, Hnorm.
Qed.

Lemma tables_normalised_witness :
  VoteTable.init Examples.ballots5 Examples.names5 = Ok Examples.table5 ∧
  normalised Examples.table5.
Proof.
split; [reflexivity|].
apply (tables_normalised Examples.ballots5 Examples.names5 Examples.table5);
  [done|done|repeat constructor|reflexivity].
Defined.

(** X3: a table in normal form is a fixed point of its own constructor:
    [copy] returns the same table, and so do the two setters when they are
    handed the table's own ballots, by voter or by candidate. *)
Theorem rebuild_identity t :
  normalised t →
  VoteTable.copy t = Ok t ∧
  VoteTable.set_by_voter t (VoteTable.votes t) = Ok t ∧
  VoteTable.set_votes_by_candidate t (VoteTable.votes_by_candidate t) = Ok t.
Proof.
intros Hnorm. pose proof (init_own t Hnorm) as Hown. split_and!.
- exact Hown.
- exact Hown.
- destruct Hnorm as [Hv _].
  unfold VoteTable.set_votes_by_candidate, VoteTable.votes_by_candidate.
  rewrite (zip_star_involutive _ (length (VoteTable.names t))); [exact Hown|apply Hv| |apply Hv].
  pose proof (valid_roster _ Hv). by destruct (VoteTable.names t).
Qed.

Lemma rebuild_identity_witness :
  normalised Examples.table5 ∧
  VoteTable.copy Examples.table5 = Ok Examples.table5 ∧
  VoteTable.set_by_voter Examples.table5 (VoteTable.votes Examples.table5)
    = Ok Examples.table5 ∧
  VoteTable.set_votes_by_candidate Examples.table5
    (VoteTable.votes_by_candidate Examples.table5) = Ok Examples.table5.
Proof.
assert (normalised Examples.table5) as Hnorm.
{ apply (init_normalised Examples.ballots5 Examples.names5);
    [done|done|repeat constructor|reflexivity]. }
split; [exact Hnorm|]. exact (rebuild_identity Examples.table5 Hnorm).
Defined.

(** ** Elimination by an index outside the roster *)

Section SliceCases.
Import PySeq.
Context {A : Type}.
Implicit Types (l : list A).

Ltac bound_cases :=
  unfold bound; cbv zeta;
  repeat match goal with
         | |- context [?a <? ?b] => destruct (Z.ltb_spec a b)
         end; lia.

Lemma bound_high n (i : Z) : Z.of_nat n ≤ i → bound n i = n.
Proof. intros. bound_cases. Qed.

Lemma bound_low n (i : Z) : i ≤ - Z.of_nat n → bound n i = 0%nat.
Proof. intros. bound_cases. Qed.

Lemma bound_negative n (i : Z) :
  - Z.of_nat n ≤ i < 0 → bound n i = bound n (i + Z.of_nat n).
Proof. intros. bound_cases. Qed.

Lemma slices_whole l (i : Z) :
  Z.of_nat (length l) ≤ i ∨ i < - Z.of_nat (length l) →
  slice_to l i ++ slice_from l (i + 1) = l.
Proof.
intros [Hi|Hi]; unfold slice_to, slice_from.
- rewrite !bound_high by lia. by rewrite firstn_all, drop_all, app_nil_r.
- rewrite !bound_low by lia. done.
Qed.

Lemma slices_from_end l (i : Z) :
  - Z.of_nat (length l) ≤ i ≤ -2 →
  slice_to l i ++ slice_from l (i + 1)
  = slice_to l (i + Z.of_nat (length l)) ++ slice_from l (i + Z.of_nat (length l) + 1).
Proof.
intros Hi. unfold slice_to, slice_from.
rewrite (bound_negative _ i), (bound_negative _ (i + 1)) by lia.
do 3 f_equal. lia.
Qed.

(** Whatever the index, at most one element is missing from the two slices
    put together. *)
Lemma slices_long l (i : Z) :
  (length l - 1 ≤ length (slice_to l i ++ slice_from l (i + 1)))%nat.
Proof.
unfold slice_to, slice_from. rewrite length_app, length_take, length_drop.
assert ((bound (length l) (i + 1) ≤ bound (length l) i + 1)%nat
        ∨ (bound (length l) i = length l - 1 ∧ bound (length l) (i + 1) = 0)%nat)
  as H by bound_cases.
assert (bound (length l) i ≤ length l)%nat by bound_cases.
lia.
Qed.

Lemma slices_minus_one l :
  slice_to l (-1) ++ slice_from l (-1 + 1) = take (length l - 1) l ++ l.
Proof.
unfold slice_to, slice_from.
replace (bound (length l) (-1)) with (length l - 1)%nat by bound_cases.
replace (bound (length l) (-1 + 1)) with 0%nat by bound_cases. done.
Qed.
End SliceCases.

(** X4: what [with_candidate_eliminated] does with an index that is not
    in [0 .. N-1] on a valid table of [N] candidates.  From [N] upwards and
    below [-N] nobody is eliminated: the result is that of [copy].  From
    [-N] to [-2] the index counts from the end, as Python's indexing does.
    Index [-1] does not remove the last candidate: the new table has the
    first [N-1] candidates twice and the last one once, [2N-1] in all. *)
Theorem elimination_index_cases t (i : Z) :
  valid t →
  let N := Z.of_nat (VoteTable.N_candidates t) in
  (N ≤ i ∨ i < - N → VoteTable.with_candidate_eliminated t i = VoteTable.copy t) ∧
  (- N ≤ i ≤ -2 →
   VoteTable.with_candidate_eliminated t i = VoteTable.with_candidate_eliminated t (i + N)) ∧
  (i = -1 →
   ∃ t', VoteTable.with_candidate_eliminated t i = Ok t' ∧ valid t' ∧
         Z.of_nat (VoteTable.N_candidates t') = 2 * N - 1 ∧
         VoteTable.names t'
           ≡ₚ take (VoteTable.N_candidates t - 1) (VoteTable.names t) ++ VoteTable.names t).
Proof.
intros Hv N. destruct (valid_columns _ Hv) as [Hlen _].
pose proof (valid_N_candidates _ Hv) as HN.
pose proof (valid_roster _ Hv) as Hne.
assert (length (VoteTable.names t) ≠ 0%nat) as Hn0 by by destruct (VoteTable.names t).
split_and!.
- intros Hi. unfold VoteTable.with_candidate_eliminated, VoteTable.copy.
  rewrite !slices_whole by (unfold N in Hi; lia).
  unfold VoteTable.votes_by_candidate.
  by rewrite (zip_star_involutive _ (length (VoteTable.names t))); [|apply Hv|done|apply Hv].
- intros Hi. unfold VoteTable.with_candidate_eliminated.
  rewrite (slices_from_end (VoteTable.votes_by_candidate t)) by (unfold N in Hi; lia).
  rewrite (slices_from_end (VoteTable.names t)) by (unfold N in Hi; lia).
  unfold N. by rewrite Hlen, HN.
- intros ->.
  destruct (eliminated_valid t (-1) Hv) as (t' & Ht' & Hv' & _ & Hperm).
  { rewrite slices_minus_one. intros E. apply (f_equal length) in E.
    rewrite length_app in E. simpl in E. lia. }
  exists t'. rewrite slices_minus_one in Hperm. split_and!; [done|done| |by rewrite HN].
  rewrite (valid_N_candidates _ Hv'), Hperm, length_app, length_take. unfold N. lia.
Qed.

Lemma elimination_index_cases_witness :
  valid Examples.table_tied ∧
  VoteTable.with_candidate_eliminated Examples.table_tied 2
    = VoteTable.copy Examples.table_tied ∧
  VoteTable.with_candidate_eliminated Examples.table_tied (-2)
    = VoteTable.with_candidate_eliminated Examples.table_tied 0.
Proof.
split; [apply table_tied_valid|].
destruct (elimination_index_cases Examples.table_tied 2 table_tied_valid) as (H2 & _ & _).
destruct (elimination_index_cases Examples.table_tied (-2) table_tied_valid) as (_ & Hm & _).
split; [apply H2; simpl; lia|apply Hm; simpl; lia].
Defined.

(** ** Whole runs of the driver *)

Section Runs.
Import PySeq VoteTable Driver.

Lemma compute_winner_valid t : valid t → ∃ r, compute_winner t = Ok r.
Proof.
intros Hv. destruct (valid_strongest t Hv) as (s & f & nm & Hs & Hnm & Hf & _).
unfold compute_winner. rewrite (index_last _ _ Hs). simpl.
pose proof (index_nonneg s 0 f Hf) as Hfirst. change (Z.of_nat 0) with 0 in Hfirst.
rewrite Hfirst. simpl. destruct (f >? _); [|by eexists].
rewrite (index_last _ _ Hnm). by eexists.
Qed.

Lemma valid_several t :
  valid t → N_candidates t ≠ 1%nat → (2 ≤ length (names t))%nat.
Proof.
intros Hv H1. rewrite (valid_N_candidates _ Hv) in H1.
pose proof (valid_roster _ Hv). destruct (names t) as [|? [|]]; simpl in *; [done|done|lia].
Qed.

Lemma check_tied_valid t :
  valid t → N_candidates t ≠ 1%nat → ∃ b, check_tied t = Ok b.
Proof.
intros Hv H1. pose proof (valid_several t Hv H1) as H2.
destruct (valid_counts_length _ Hv) as [Hlen _]. rewrite <- Hlen in H2.
destruct (lookup_lt_is_Some_2 (counts t) (pred (length (counts t)))) as [s Hs]; [lia|].
destruct (lookup_lt_is_Some_2 (counts t) (length (counts t) - 2)) as [s' Hs']; [lia|].
unfold check_tied. rewrite (index_last _ s) by by rewrite last_lookup. simpl.
rewrite (index_second_last _ s') by done. by eexists.
Qed.

Lemma eliminated_any t (i : Z) :
  valid t → N_candidates t ≠ 1%nat →
  ∃ t', with_candidate_eliminated t i = Ok t' ∧ valid t' ∧ names t' ⊆ names t.
Proof.
intros Hv H1. pose proof (valid_several t Hv H1) as H2.
destruct (eliminated_valid t i Hv) as (t' & Ht' & Hv' & _ & Hperm).
- intros E. pose proof (slices_long (names t) i) as Hl. rewrite E in Hl. simpl in Hl. lia.
- exists t'. split_and!; [done..|]. rewrite Hperm. apply slices_subseteq.
Qed.

Lemma select_loser_result is_automated t ins :
  valid t → N_candidates t ≠ 1%nat →
  match select_loser is_automated t ins with
  | Ok (_, ins') => (length ins' ≤ length ins)%nat
  | Raise e => selector_error is_automated e
  end.
Proof.
intros Hv H1. unfold select_loser. destruct is_automated.
- destruct (check_tied_valid t Hv H1) as [b ->]. simpl.
  destruct b; [|done]. destruct ins; simpl; [by left|lia].
- destruct ins as [|i ins]; [by left|].
  destruct (index (names t) i) eqn:E; simpl; [lia|].
  right. split; [done|]. by eapply index_Raise.
Qed.

(** What the loop can return on a valid table. *)
Lemma elimination_loop_result fuel is_automated t ins r :
  valid t → elimination_loop fuel is_automated t ins = Some r →
  match r with
  | Ok (w, o, ins') =>
      valid w ∧ names w ⊆ names t ∧ outcome_name o ∈ names w ∧
      (length ins' ≤ length ins)%nat
  | Raise e => selector_error is_automated e
  end.
Proof.
revert t ins. induction fuel as [|fuel IH]; intros t ins Hv; simpl; [done|].
destruct (compute_winner_valid t Hv) as [w Hw]. rewrite Hw.
destruct w as [w|].
- intros [= <-]. split_and!; [done|done| |done]. by apply compute_winner_Some.
- destruct (decide (N_candidates t = 1%nat)) as [H1|H1].
  + rewrite (valid_N_candidates _ Hv) in H1.
    destruct (names t) as [|u [|]] eqn:Hn; [done| |done].
    intros [= <-]. split_and!; [done|by rewrite Hn| |done]. rewrite Hn. simpl. by left.
  + pose proof (select_loser_result is_automated t ins Hv H1) as Hsel.
    destruct (select_loser is_automated t ins) as [[i ins1]|e]; simpl.
    2:{ by intros [= <-]. }
    destruct (eliminated_any t i Hv H1) as (t1 & -> & Hv1 & Hsub). simpl.
    intros Hloop. specialize (IH t1 ins1 Hv1 Hloop).
    destruct r as [[[w o] ins']|e]; [|done].
    destruct IH as (Hvw & Hsubw & Ho & Hlen).
    split_and!; [done| |done|lia]. by etrans.
Qed.

(** What one round can return, from a valid table that holds as many
    candidates as there are ranks left. *)
Lemma round_result fuel is_automated (N rank : nat) st r :
  valid (table st) → (N_candidates (table st) + rank = N)%nat →
  round fuel is_automated N rank st = Some r →
  match r with
  | Ok st' =>
      (length (inputs st') ≤ length (inputs st))%nat ∧
      if decide (S rank = N)
      then ranking st' ++ ineligible_candidates st'
           ≡ₚ ranking st ++ ineligible_candidates st ++ names (table st)
      else valid (table st') ∧ (N_candidates (table st') + S rank = N)%nat ∧
           ranking st' ++ ineligible_candidates st' ++ names (table st')
           ≡ₚ ranking st ++ ineligible_candidates st ++ names (table st)
  | Raise e => selector_error is_automated e
  end.
Proof.
intros Hv HN. unfold round.
destruct (copy_valid _ Hv) as (full & -> & Hvf & HNf & Hpf).
destruct (elimination_loop fuel is_automated (table st) (inputs st))
  as [[[[w o] ins']|e]|] eqn:Hloop; [| |done].
2:{ intros [= <-]. by apply (elimination_loop_result _ _ _ _ _ Hv Hloop). }
destruct (elimination_loop_result _ _ _ _ _ Hv Hloop) as (Hvw & Hsub & Ho & Hlen).
assert (outcome_name o ∈ names (table st)) as Hin by by apply Hsub.
destruct (decide (S rank = N)) as [Hlast|Hmore].
- intros [= <-]. simpl. split; [done|].
  assert (names (table st) = [outcome_name o]) as ->.
  { rewrite (valid_N_candidates _ Hv) in HN.
    destruct (names (table st)) as [|u [|]]; simpl in HN; [lia| |lia].
    apply elem_of_cons in Hin as [->|Hin]; [done|]. by apply elem_of_nil in Hin. }
  destruct o; simpl; [|done].
  by rewrite <- !app_assoc, (Permutation_app_comm (ineligible_candidates st)).
- assert (outcome_name o ∈ names full) as Hinf by by rewrite Hpf.
  destruct (find_index_Ok _ _ Hinf) as (i & Hi & Hlook).
  pose proof (valid_roster _ Hv) as Hne.
  assert (N_candidates (table st) ≠ 0%nat) as Hpos.
  { rewrite (valid_N_candidates _ Hv). by destruct (names (table st)). }
  destruct (eliminated_in_range full (Z.of_nat i) Hvf) as (t' & Ht' & Hvt' & _ & HN' & Hp').
  { lia. }
  { apply lookup_lt_Some in Hlook. rewrite (valid_N_candidates _ Hvf). lia. }
  rewrite Nat2Z.id in Hp'.
  assert (names (table st) ≡ₚ outcome_name o :: names t') as Hperm.
  { rewrite <- Hpf, Hp'. by apply delete_Permutation. }
  unfold next_table. rewrite Hi. simpl. rewrite Ht'. simpl.
  intros [= <-]. simpl. split; [done|]. split; [done|]. split; [lia|].
  rewrite Hperm. destruct o; simpl.
  + rewrite <- !app_assoc. simpl.
    by rewrite <- !Permutation_middle.
  + rewrite <- !app_assoc. simpl.
    by rewrite <- !Permutation_middle.
Qed.
End Runs.

Section WholeRuns.
Import PySeq VoteTable Driver.

Lemma rounds_result fuel is_automated (N k : nat) :
  ∀ rank st r,
    valid (table st) → N_candidates (table st) = k → (k + rank = N)%nat →
    rounds fuel is_automated N (seq rank k) st = Some r →
    match r with
    | Ok st' =>
        ranking st' ++ ineligible_candidates st'
        ≡ₚ ranking st ++ ineligible_candidates st ++ names (table st)
    | Raise e => selector_error is_automated e
    end.
Proof.
induction k as [|k IH]; intros rank st r Hv Hk HN.
- pose proof (valid_roster _ Hv). rewrite (valid_N_candidates _ Hv) in Hk.
  by destruct (names (table st)).
- simpl. destruct (round fuel is_automated N rank st) as [r1|] eqn:Hround; [|done].
  pose proof (round_result fuel is_automated N rank st r1 Hv ltac:(lia) Hround) as Hr1.
  destruct r1 as [st1|e]; [|by intros [= <-]].
  destruct Hr1 as [_ Hr1]. destruct (decide (S rank = N)) as [Hlast|Hmore].
  + assert (k = 0%nat) as -> by lia. simpl. by intros [= <-].
  + destruct Hr1 as (Hv1 & HN1 & Hperm). intros Hrest.
    specialize (IH (S rank) st1 r Hv1 ltac:(lia) ltac:(lia) Hrest).
    destruct r as [st'|e]; [|done]. by rewrite IH.
Qed.

Lemma round_total fuel (N rank : nat) st :
  valid (table st) → (N_candidates (table st) ≤ fuel)%nat → inputs st = [] →
  ∃ r, round fuel true N rank st = Some r.
Proof.
intros Hv Hfuel Hin. unfold round.
destruct (copy_valid _ Hv) as (full & -> & _).
rewrite Hin. destruct (elimination_loop_automatic_total fuel _ Hv Hfuel) as [r0 ->].
destruct r0 as [[[w o] ins']|e]; [|by eexists].
destruct (decide (S rank = N)); by eexists.
Qed.

Lemma rounds_total fuel (N k : nat) :
  ∀ rank st,
    valid (table st) → N_candidates (table st) = k → (k + rank = N)%nat →
    (k ≤ fuel)%nat → inputs st = [] →
    ∃ r, rounds fuel true N (seq rank k) st = Some r.
Proof.
induction k as [|k IH]; intros rank st Hv Hk HN Hfuel Hin; [by eexists|].
simpl. destruct (round_total fuel N rank st Hv ltac:(lia) Hin) as [r1 Hround].
rewrite Hround.
pose proof (round_result fuel true N rank st r1 Hv ltac:(lia) Hround) as Hr1.
destruct r1 as [st1|e]; [|by eexists].
destruct Hr1 as [Hlen Hr1]. destruct (decide (S rank = N)) as [Hlast|Hmore].
- assert (k = 0%nat) as -> by lia. by eexists.
- destruct Hr1 as (Hv1 & HN1 & _). apply IH; [done|lia|lia|lia|].
  rewrite Hin in Hlen. simpl in Hlen. by destruct (inputs st1); [|simpl in Hlen; lia].
Qed.
End WholeRuns.

(** X5: when [instant_runoff] returns on a valid table, every candidate of
    the table is either ranked or listed as ineligible, once: the two lists
    together are a rearrangement of the table's names. *)
Theorem instant_runoff_partition fuel t is_automated ins ranking ineligible :
  valid t →
  Driver.instant_runoff fuel t is_automated ins = Some (Ok (ranking, ineligible)) →
  ranking ++ ineligible ≡ₚ VoteTable.names t.
Proof.
intros Hv. unfold Driver.instant_runoff.
destruct (Driver.rounds _ _ _ _ _) as [[st'|e]|] eqn:Hrounds; [|done..].
intros [= <- <-].
apply (rounds_result fuel is_automated (VoteTable.N_candidates t) (VoteTable.N_candidates t)
         0%nat (Driver.State t [] [] ins) _ Hv eq_refl ltac:(lia))
  in Hrounds. done.
Qed.

Lemma instant_runoff_partition_witness :
  valid Examples.table5 ∧
  Driver.instant_runoff 10 Examples.table5 true [] = Some (Ok (["A"; "B"; "C"]%string, [])) ∧
  ["A"; "B"; "C"]%string ++ [] ≡ₚ VoteTable.names Examples.table5.
Proof.
split; [apply table5_valid|]. split; [reflexivity|].
apply (instant_runoff_partition 10 Examples.table5 true []); [apply table5_valid|reflexivity].
Defined.



(** X7: in automatic mode with no input to read, a run on a valid table
    needs at most as many loop iterations per round as the table has
    candidates: with that much fuel it returns, either a result or the
    [EOFError] of the prompt at an unbreakable tie. *)
Theorem instant_runoff_automatic_returns fuel t :
  valid t → (VoteTable.N_candidates t ≤ fuel)%nat →
  (∃ ranking ineligible,
     Driver.instant_runoff fuel t true [] = Some (Ok (ranking, ineligible))) ∨
  Driver.instant_runoff fuel t true [] = Some (Raise EOFError).
Proof.
intros Hv Hfuel. unfold Driver.instant_runoff.
destruct (rounds_total fuel (VoteTable.N_candidates t) (VoteTable.N_candidates t) 0
            (Driver.State t [] [] []) Hv eq_refl ltac:(lia) Hfuel eq_refl) as [r Hr].
rewrite Hr.
apply (rounds_result fuel true (VoteTable.N_candidates t) (VoteTable.N_candidates t)
         0%nat (Driver.State t [] [] []) _ Hv eq_refl ltac:(lia)) in Hr.
destruct r as [st'|e].
- left. by eexists _, _.
- right. destruct Hr as [->|[? _]]; done.
Qed.

Lemma instant_runoff_automatic_returns_witness :
  valid Examples.table_tied ∧ (VoteTable.N_candidates Examples.table_tied ≤ 2)%nat ∧
  ((∃ ranking ineligible,
      Driver.instant_runoff 2 Examples.table_tied true [] = Some (Ok (ranking, ineligible))) ∨
   Driver.instant_runoff 2 Examples.table_tied true [] = Some (Raise EOFError)).
Proof.
split; [apply table_tied_valid|]. split; [simpl; lia|].
apply (instant_runoff_automatic_returns 2 Examples.table_tied); [apply table_tied_valid|].
simpl; lia.
Defined.

(** ** Input that builds no table *)

Section NoTable.
Import PySeq VoteTable.

Lemma zip_star_empty_row {A} (rows : list (list A)) : [] ∈ rows → zip_star rows = [].
Proof.
intros [i Hi]%list_elem_of_lookup_1.
destruct (zip_star rows) as [|c cs] eqn:E; [done|]. exfalso.
assert (zip_star rows !! 0%nat = Some c) as Hc by by rewrite E.
apply zip_star_lookup_Some in Hc.
by destruct (Forall2_lookup_l _ _ _ _ _ Hc Hi) as (y & _ & Hy).
Qed.

Lemma init_no_columns votes0 (names0 : list string) :
  zip_star (get_rank_order <$> votes0) = [] → init votes0 names0 = Raise ValueError.
Proof.
intros H. unfold init, maintain, update_counts, reduce_ranks, votes_by_candidate. simpl.
rewrite H. by destruct names0.
Qed.
Lemma init_no_slots votes0 (names0 : list string) :
  votes0 = [] ∨ [] ∈ votes0 → init votes0 names0 = Raise ValueError.
Proof.
intros [->|Hin]; apply init_no_columns; [done|].
apply zip_star_empty_row, list_elem_of_fmap. exists []. split; [reflexivity|done].
Qed.
End NoTable.

(** X8: [VoteTable(votes, names)] raises [ValueError] when there is no
    ballot, no candidate name, or a ballot without any slot: no column is
    left to unpack. *)
Theorem init_degenerate votes0 (names0 : list string) :
  votes0 = [] ∨ names0 = [] ∨ [] ∈ votes0 →
  VoteTable.init votes0 names0 = Raise ValueError.
Proof.
intros [->|[->|Hin]].
- apply init_no_slots. by left.
- reflexivity.
- apply init_no_slots. by right.
Qed.

Lemma init_degenerate_witness :
  VoteTable.init [[Some 1; Some 2]; []] ["A"; "B"]%string = Raise ValueError.
Proof.
apply init_degenerate. right. right. apply elem_of_cons. right. apply elem_of_cons. by left.
Defined.

(** X9: a vote file with no ballot line, or with a ballot line that holds
    nothing but white space (a trailing empty line, say), does not load:
    [read_votes] raises [ValueError], whatever the other lines are. *)
Theorem read_votes_blank_line (first : string) (lines : list string) :
  lines = [] ∨ (∃ line, line ∈ lines ∧ Reader.split_ws line = []) →
  Reader.read_votes first lines = Raise ValueError.
Proof.
intros H. unfold Reader.read_votes.
destruct (mapM _ lines) as [votes|e] eqn:Hvotes; simpl.
- apply init_no_slots. destruct H as [->|(line & Hline & Hblank)].
  + left. simpl in Hvotes. by injection Hvotes as <-.
  + right. apply mapM_Ok in Hvotes.
    apply list_elem_of_lookup_1 in Hline as [i Hi].
    destruct (Forall2_lookup_l _ _ _ _ _ Hvotes Hi) as (b & Hb & Hparse).
    rewrite Hblank in Hparse. simpl in Hparse. injection Hparse as <-.
    by eapply list_elem_of_lookup_2.
- f_equal. apply mapM_Raise_inv in Hvotes as (line & _ & Hline).
  apply mapM_Raise_inv in Hline as (tok & _ & Htok). by eapply int_or_none_Raise.
Qed.

Lemma read_votes_blank_line_witness :
  Reader.read_votes Examples.header_AB
    [Examples.ballot_line ["1"; "2"]%string; Examples.ballot_line []] = Raise ValueError.
Proof.
apply read_votes_blank_line. right. exists (Examples.ballot_line []).
split; [|reflexivity]. apply elem_of_cons. right. apply elem_of_cons. by left.
Defined.

(** ** The file layout *)

Section FileLayout.
Import Reader.

Lemma drop_last_snoc s c :
  drop_last (String.append s (String.String c String.EmptyString)) = s.
Proof.
induction s as [|a s IH]; [done|].
change (drop_last (String.String a (String.append s (String.String c String.EmptyString)))
        = String.String a s).
simpl. rewrite IH. by destruct s.
Qed.

Lemma split_on_no_sep c s :
  c ∉ String.list_ascii_of_string s → split_on c s = [s].
Proof.
induction s as [|a s IH]; intros Hc; simpl in *; [done|].
apply not_elem_of_cons in Hc as [Hne Hc].
rewrite (proj2 (Ascii.eqb_neq a c)) by done. by rewrite IH.
Qed.

Lemma split_on_app c x rest :
  c ∉ String.list_ascii_of_string x →
  split_on c (String.append x (String.String c rest)) = x :: split_on c rest.
Proof.
induction x as [|a x IH]; intros Hc; simpl in *.
- by rewrite Ascii.eqb_refl.
- apply not_elem_of_cons in Hc as [Hne Hc].
  rewrite (proj2 (Ascii.eqb_neq a c)) by done. by rewrite IH.
Qed.

Lemma split_on_join c (fields : list string) :
  fields ≠ [] → Forall (fun f => c ∉ String.list_ascii_of_string f) fields →
  split_on c (Printer.join c fields) = fields.
Proof.
induction fields as [|x fields IH]; intros Hne Hall; [done|].
apply Forall_cons in Hall as [Hx Hall].
destruct fields as [|y fields]; [by apply split_on_no_sep|].
change (Printer.join c (x :: y :: fields))
  with (String.append x (String.String c (Printer.join c (y :: fields)))).
rewrite split_on_app by done. by rewrite IH.
Qed.

Lemma split_ws_token t sp rest :
  token t → is_space sp = true →
  split_ws (String.append t (String.String sp rest)) = t :: split_ws rest.
Proof.
intros [Hne Hall] Hsp. induction t as [|a t IH]; [done|].
simpl in Hall. apply Forall_cons in Hall as [Ha Hall].
change (String.append (String.String a t) (String.String sp rest))
  with (String.String a (String.append t (String.String sp rest))).
destruct t as [|b t].
- simpl. by rewrite Ha, Hsp.
- specialize (IH ltac:(done) Hall).
  change (split_ws (String.String a (String.append (String.String b t)
                                       (String.String sp rest))))
    with (if is_space a then split_ws (String.append (String.String b t)
                                         (String.String sp rest))
          else if is_space b
               then String.String a String.EmptyString
                      :: split_ws (String.append (String.String b t)
                                     (String.String sp rest))
               else match split_ws (String.append (String.String b t)
                                      (String.String sp rest)) with
                    | w :: ws => String.String a w :: ws
                    | [] => [String.String a String.EmptyString]
                    end).
  rewrite Ha, IH. simpl in Hall. apply Forall_cons in Hall as [-> _]. done.
Qed.

Lemma append_assoc (s1 s2 s3 : string) :
  String.append (String.append s1 s2) s3 = String.append s1 (String.append s2 s3).
Proof.
induction s1 as [|a s1 IH]; [done|].
change (String.String a (String.append (String.append s1 s2) s3)
        = String.String a (String.append s1 (String.append s2 s3))).
by rewrite IH.
Qed.

Lemma split_ws_line (tokens : list string) :
  Forall token tokens → split_ws (line_of blank tokens) = tokens.
Proof.
unfold line_of. induction tokens as [|x tokens IH]; intros Hall; [reflexivity|].
apply Forall_cons in Hall as [Hx Hall].
destruct tokens as [|y tokens].
- change (Printer.join blank [x]) with x.
  rewrite split_ws_token by done. done.
- change (Printer.join blank (x :: y :: tokens))
    with (String.append x (String.String blank (Printer.join blank (y :: tokens)))).
  rewrite append_assoc.
  change (String.append (String.String blank (Printer.join blank (y :: tokens)))
            (String.String newline String.EmptyString))
    with (String.String blank
            (String.append (Printer.join blank (y :: tokens))
               (String.String newline String.EmptyString))).
  rewrite split_ws_token by done. by rewrite IH.
Qed.
End FileLayout.

(** X10: a file laid out as the help text describes is read back field by
    field.  If no name contains a tab and every token is non-empty and free
    of white space, reading the header line and the ballot lines gives
    exactly what [VoteTable(votes, names)] gives on the parsed tokens; the
    last character of the header line is dropped whatever it is. *)
Theorem read_votes_layout (names0 : list string) (rows : list (list string)) (c : Ascii.ascii) :
  names0 ≠ [] →
  Forall (fun nm => tab ∉ String.list_ascii_of_string nm) names0 →
  Forall (Forall token) rows →
  Reader.read_votes
    (String.append (Printer.join tab names0) (String.String c String.EmptyString))
    (line_of blank <$> rows)
  = mapM (mapM Reader.int_or_none) rows ≫= fun votes => VoteTable.init votes names0.
Proof.
intros Hne Hnames Hrows. unfold Reader.read_votes.
rewrite drop_last_snoc.
change (Ascii.Ascii true false false true false false false false) with tab.
rewrite (split_on_join tab names0 Hne Hnames).
assert (mapM (fun line => mapM Reader.int_or_none (Reader.split_ws line))
             (line_of blank <$> rows)
        = mapM (mapM Reader.int_or_none) rows) as ->; [|done].
induction Hrows as [|toks rows Htoks _ IH]; [done|].
rewrite fmap_cons. simpl. rewrite (split_ws_line toks Htoks). by rewrite IH.
Qed.

Lemma read_votes_layout_witness :
  Reader.read_votes
    (String.append (Printer.join tab ["A"; "B"]%string)
       (String.String newline String.EmptyString))
    (line_of blank <$> [["1"; "2"]; ["0"; "1"]]%string)
  = mapM (mapM Reader.int_or_none) [["1"; "2"]; ["0"; "1"]]%string
      ≫= fun votes => VoteTable.init votes ["A"; "B"]%string.
Proof.
apply read_votes_layout.
- done.
- repeat constructor; vm_compute;
    intros H; repeat (apply elem_of_cons in H as [H|H]; [done|]); by apply elem_of_nil in H.
- repeat constructor; done.
Defined.

(** ** What a count vector holds *)

Section Entries.
Import PySeq VoteTable.

Lemma count_entry t i c (r : nat) :
  valid t → counts t !! i = Some c → (r < N_candidates t)%nat →
  c !! r = Some (Z.of_nat (length (filter (ranked_at i (Z.of_nat r + 1)) (votes t)))).
Proof.
intros Hv Hc Hr.
destruct (Forall2_lookup_r _ _ _ _ _ (valid_counts _ Hv) Hc) as (col & Hcol & Htally).
rewrite (count_votes_lookup _ _ _ r Htally), lookup_replicate_2 by done.
simpl. rewrite Z.add_0_l. do 2 f_equal. symmetry.
apply column_ranked_at. by apply zip_star_lookup_Some.
Qed.

Lemma filter_overlap {A} (P Q : A → Prop) `{∀ x, Decision (P x)} `{∀ x, Decision (Q x)}
    (l : list A) :
  (length l < length (filter P l) + length (filter Q l))%nat →
  ∃ x, x ∈ l ∧ P x ∧ Q x.
Proof.
induction l as [|a l IH]; intros Hlen; [simpl in Hlen; lia|].
rewrite !filter_cons in Hlen.
destruct (decide (P a)) as [HP|HP], (decide (Q a)) as [HQ|HQ]; simpl in Hlen.
- exists a. split; [by left|done].
- destruct IH as (x & Hx & ?); [lia|]. exists x. split; [by right|done].
- destruct IH as (x & Hx & ?); [lia|]. exists x. split; [by right|done].
- destruct IH as (x & Hx & ?); [lia|]. exists x. split; [by right|done].
Qed.

(** In a table in normal form two different candidates cannot both be
    ranked first on more than half of the ballots. *)
Lemma majority_at_most_one t i j ci cj fi fj :
  normalised t →
  counts t !! i = Some ci → ci !! 0%nat = Some fi →
  counts t !! j = Some cj → cj !! 0%nat = Some fj →
  Z.of_nat (length (votes t)) < 2 * fi → Z.of_nat (length (votes t)) < 2 * fj →
  i = j.
Proof.
intros [Hv Hd] Hci Hfi Hcj Hfj Hi Hj.
assert (0 < N_candidates t)%nat as Hpos.
{ rewrite (valid_N_candidates _ Hv). pose proof (valid_roster _ Hv).
  destruct (names t); simpl; [done|lia]. }
rewrite (count_entry t i ci 0 Hv Hci Hpos) in Hfi. injection Hfi as <-.
rewrite (count_entry t j cj 0 Hv Hcj Hpos) in Hfj. injection Hfj as <-.
destruct (filter_overlap (ranked_at i (Z.of_nat 0 + 1)) (ranked_at j (Z.of_nat 0 + 1))
            (votes t)) as (b & Hb & Hbi & Hbj); [lia|].
rewrite Forall_forall in Hd. by apply (dense_lookup_inj b i j _ (Hd b Hb) Hbi Hbj).
Qed.

Lemma compute_winner_value t s f nm :
  valid t → last (counts t) = Some s → s !! 0%nat = Some f → last (names t) = Some nm →
  compute_winner t
  = Ok (if bool_decide (Z.of_nat (length (votes t)) < 2 * f) then Some nm else None).
Proof.
intros Hv Hs Hf Hnm. unfold compute_winner. rewrite (index_last _ _ Hs). simpl.
pose proof (index_nonneg s 0 f Hf) as Hfirst. change (Z.of_nat 0) with 0 in Hfirst.
rewrite Hfirst. simpl. rewrite majority_test, (valid_N_votes _ Hv).
case_bool_decide; [|done]. by rewrite (index_last _ _ Hnm).
Qed.

Lemma index_from_end_inv {A} (l : list A) (k : nat) x :
  (1 ≤ k)%nat → index l (- Z.of_nat k) = Ok x →
  (k ≤ length l)%nat ∧ l !! (length l - k)%nat = Some x.
Proof.
intros Hk. unfold index; cbv zeta.
destruct (Z.ltb_spec (- Z.of_nat k) 0); [|lia].
destruct (Z.ltb_spec (- Z.of_nat k + Z.of_nat (length l)) 0); [done|].
replace (Z.to_nat (- Z.of_nat k + Z.of_nat (length l))) with (length l - k)%nat by lia.
destruct (l !! _) eqn:E; intros [= <-]. split; [lia|done].
Qed.



End Entries.

(** X11: in a valid table every count vector has one entry per candidate,
    and entry [r] (from 0) of candidate [i] is the number of ballots that
    give candidate [i] the rank [r + 1]. *)
Theorem count_vector_entries t i c :
  valid t → VoteTable.counts t !! i = Some c →
  length c = VoteTable.N_candidates t ∧
  ∀ r, (r < VoteTable.N_candidates t)%nat →
       c !! r = Some (Z.of_nat (length (filter (ranked_at i (Z.of_nat r + 1))
                                          (VoteTable.votes t)))).
Proof.
intros Hv Hc. split.
- destruct (valid_counts_length _ Hv) as [_ Hall]. rewrite Forall_forall in Hall.
  rewrite (valid_N_candidates _ Hv). apply Hall. by eapply list_elem_of_lookup_2.
- intros r Hr. by apply count_entry.
Qed.

Lemma count_vector_entries_witness :
  valid Examples.table5 ∧ VoteTable.counts Examples.table5 !! 2%nat = Some [2; 2; 1] ∧
  length [2; 2; 1] = 3%nat ∧
  ∀ r, (r < 3)%nat →
       [2; 2; 1] !! r
       = Some (Z.of_nat (length (filter (ranked_at 2 (Z.of_nat r + 1))
                                   (VoteTable.votes Examples.table5)))).
Proof.
split; [apply table5_valid|]. split; [reflexivity|].
exact (count_vector_entries Examples.table5 2 [2; 2; 1] table5_valid eq_refl).
Defined.

(** X12: in a table in normal form at most one candidate is ranked first
    on more than half of the ballots, so the majority winner is unique; and
    when [check_tied] reports an unbreakable tie between the two strongest
    candidates, [compute_winner] finds no winner. *)
Theorem majority_unique t :
  normalised t →
  (∀ i j ci cj fi fj,
     VoteTable.counts t !! i = Some ci → ci !! 0%nat = Some fi →
     VoteTable.counts t !! j = Some cj → cj !! 0%nat = Some fj →
     Z.of_nat (length (VoteTable.votes t)) < 2 * fi →
     Z.of_nat (length (VoteTable.votes t)) < 2 * fj →
     i = j) ∧
  (VoteTable.check_tied t = Ok true → VoteTable.compute_winner t = Ok None).
Proof.
intros Hn. split.
- intros i j ci cj fi fj. by apply majority_at_most_one.
- destruct Hn as [Hv Hd]. unfold VoteTable.check_tied.
  destruct (PySeq.index (VoteTable.counts t) (-1)) as [a|] eqn:Ha; simpl; [|done].
  destruct (PySeq.index (VoteTable.counts t) (-2)) as [b|] eqn:Hb; simpl; [|done].
  intros [= Htied]. apply andb_prop in Htied as [Heq _].
  apply bool_decide_eq_true in Heq as <-.
  apply (index_from_end_inv _ 1) in Ha as [_ Ha]; [|lia].
  apply (index_from_end_inv _ 2) in Hb as [H2 Hb]; [|lia].
  destruct (valid_strongest t Hv) as (s & f & nm & Hs & Hnm & Hf & _).
  rewrite (compute_winner_value t s f nm Hv Hs Hf Hnm).
  case_bool_decide as Hmaj; [|done]. exfalso.
  rewrite last_lookup in Hs.
  assert (a = s) as -> by (replace (length (VoteTable.counts t) - 1)%nat
                             with (pred (length (VoteTable.counts t))) in Ha by lia;
                           congruence).
  assert ((length (VoteTable.counts t) - 1)%nat = (length (VoteTable.counts t) - 2)%nat);
    [|lia].
  by apply (majority_at_most_one t _ _ s s f f (conj Hv Hd) Ha Hf Hb Hf).
Qed.

Lemma majority_unique_witness :
  VoteTable.with_candidate_eliminated Examples.table5 0 = Ok Examples.working5 ∧
  normalised Examples.working5 ∧
  (VoteTable.check_tied Examples.working5 = Ok true →
   VoteTable.compute_winner Examples.working5 = Ok None).
Proof.
assert (normalised Examples.working5) as Hn.
{ apply (eliminated_normalised Examples.table5 0); [apply table5_valid|reflexivity]. }
split; [reflexivity|]. split; [exact Hn|].
exact (proj2 (majority_unique Examples.working5 Hn)).
Defined.



(** ** The printed ranking *)


(** ** Elimination, ballot by ballot *)

Section BallotView.
Import PySeq VoteTable.

Lemma fmap_delete_list {A B} (f : A → B) (l : list A) i :
  f <$> delete i l = delete i (f <$> l).
Proof. by rewrite !delete_take_drop, fmap_app, fmap_take, fmap_drop. Qed.

(** Dropping column [i] of the transpose and transposing back drops slot
    [i] of every row. *)
Lemma zip_star_delete {A} (rows : list (list A)) (d : A) n i :
  rows ≠ [] → Forall (fun r => length r = n) rows → (2 ≤ n)%nat → (i < n)%nat →
  zip_star (delete i (zip_star rows)) = delete i <$> rows.
Proof.
intros Hne Hall Hn Hi.
pose proof (zip_star_length rows n Hne Hall) as Hlen.
assert (Forall (fun c => length c = length rows) (zip_star rows)) as Hcols.
{ apply Forall_forall. intros c. apply zip_star_inner_length. }
assert (length (delete i (zip_star rows)) = pred n) as Hlen'.
{ rewrite length_delete; [lia|]. apply lookup_lt_is_Some. lia. }
assert (delete i (zip_star rows) ≠ []) as Hne'.
{ intros E. rewrite E in Hlen'. simpl in Hlen'. lia. }
assert (Forall (fun c => length c = length rows) (delete i (zip_star rows))) as Hcols'.
{ rewrite delete_take_drop. apply Forall_app.
  split; [by apply Forall_take|by apply Forall_drop]. }
assert (zip_star rows ≠ []) as Hcne.
{ intros E. rewrite E in Hlen. simpl in Hlen. lia. }
apply list_eq. intros k. rewrite list_lookup_fmap.
destruct (rows !! k) as [r|] eqn:Hr; simpl.
- assert (k < length rows)%nat as Hk by by eapply lookup_lt_Some.
  rewrite (zip_star_row _ k d) by (done || (eapply Forall_impl; [done|]; simpl; lia)).
  rewrite fmap_delete_list. do 2 f_equal.
  assert (zip_star (zip_star rows) !! k = Some r) as Hrow.
  { by rewrite (zip_star_involutive rows n) by (done || lia). }
  rewrite (zip_star_row _ k d) in Hrow
    by (done || (eapply Forall_impl; [done|]; simpl; lia)).
  by injection Hrow.
- apply lookup_ge_None. rewrite (zip_star_length _ (length rows)) by done.
  by apply lookup_ge_None.
Qed.
End BallotView.

(** X15: on a valid table with at least two candidates, eliminating the
    candidate at an index inside the roster is rebuilding the table from the
    ballots with that slot removed and the names with that name removed. *)
Theorem elimination_removes_slot t (i : Z) :
  valid t → (2 ≤ VoteTable.N_candidates t)%nat →
  0 ≤ i < Z.of_nat (VoteTable.N_candidates t) →
  VoteTable.with_candidate_eliminated t i
  = VoteTable.init (delete (Z.to_nat i) <$> VoteTable.votes t)
                   (delete (Z.to_nat i) (VoteTable.names t)).
Proof.
intros Hv H2 Hi. rewrite (valid_N_candidates _ Hv) in H2, Hi.
destruct (valid_columns _ Hv) as [Hlen _].
unfold VoteTable.with_candidate_eliminated.
rewrite !slices_delete by lia. unfold VoteTable.votes_by_candidate.
rewrite (zip_star_delete _ None (length (VoteTable.names t)));
  [done|apply Hv|apply Hv|lia|lia].
Qed.

Lemma elimination_removes_slot_witness :
  valid Examples.table5 ∧
  VoteTable.with_candidate_eliminated Examples.table5 1
  = VoteTable.init (delete 1%nat <$> VoteTable.votes Examples.table5)
                   (delete 1%nat (VoteTable.names Examples.table5)).
Proof.
split; [apply table5_valid|].
apply (elimination_removes_slot Examples.table5 1 table5_valid); simpl; lia.
Defined.

(** ** Ballots shorter than the header *)

Section ShortRows.
Import PySeq VoteTable.

Lemma zip_star_length_min {A} (rows : list (list A)) m :
  rows ≠ [] → Forall (fun r => (m ≤ length r)%nat) rows →
  Exists (fun r => length r = m) rows →
  length (zip_star rows) = m.
Proof.
intros Hne Hall Hex. apply length_from_lookup. intros j.
rewrite zip_star_lookup, mapM_is_Some by done.
rewrite Forall_forall in Hall. rewrite Forall_forall. split.
- intros H. apply Exists_exists in Hex as (r & Hr & <-).
  apply lookup_lt_is_Some. by apply H.
- intros Hj r Hr. simpl. apply lookup_lt_is_Some. specialize (Hall r Hr). lia.
Qed.

Lemma snd_zip_take {A B} (l : list A) (k : list B) :
  (zip l k).*2 = take (length l) k.
Proof.
revert k. induction l as [|x l IH]; intros [|y k]; simpl; try done.
by rewrite IH.
Qed.

Lemma init_short_rows_Ok votes0 (names0 : list string) m :
  votes0 ≠ [] → (1 ≤ m)%nat →
  Forall (fun b => (m ≤ length b ≤ length names0)%nat) votes0 →
  Exists (fun b => length b = m) votes0 →
  length (zip_star (get_rank_order <$> votes0)) = m ∧
  ∃ t, init votes0 names0 = Ok t.
Proof.
intros Hv Hm Hall Hex.
set (cols := zip_star (get_rank_order <$> votes0)).
assert (length cols = m) as Hlcols.
{ apply zip_star_length_min.
  - by destruct votes0.
  - apply Forall_fmap. eapply Forall_impl; [done|]. simpl.
    intros b Hb. rewrite get_rank_order_length. lia.
  - apply Exists_fmap. eapply Exists_impl; [done|]. simpl.
    intros b Hb. by rewrite get_rank_order_length. }
split; [done|].
assert (m ≤ length names0)%nat as Hmn.
{ apply Exists_exists in Hex as (b & Hb & <-).
  rewrite Forall_forall in Hall. specialize (Hall b Hb). lia. }
unfold init, maintain, update_counts, reduce_ranks, votes_by_candidate. simpl.
fold cols.
destruct (mapM_Ok_total
            (fun cv : string * list vote =>
               count_votes (replicate (length names0) 0) cv.2)
            (zip names0 cols)) as [tally Htally].
{ apply Forall_forall. intros [nm col] Hin. simpl.
  apply count_votes_total. rewrite length_replicate.
  apply elem_of_zip_r in Hin. apply list_elem_of_lookup_1 in Hin as [j Hj].
  apply zip_star_lookup_Some in Hj.
  apply Forall_forall. intros v Hvin.
  apply list_elem_of_lookup_1 in Hvin as [i Hi].
  destruct (Forall2_lookup_r _ _ _ _ _ Hj Hi) as (r & Hr & Hrj).
  apply list_lookup_fmap_Some in Hr as (b & -> & Hb).
  rewrite Forall_forall in Hall.
  specialize (Hall b ltac:(by eapply list_elem_of_lookup_2)).
  intros x ->. apply list_elem_of_lookup_2 in Hrj.
  pose proof (normalised_in_keys b (Some x) Hrj x eq_refl). lia. }
rewrite Htally. simpl.
destruct (sorted cmp_row _) as [|r rows] eqn:Hrows; [|by eexists].
exfalso. apply sorted_nil_inv in Hrows. apply mapM_Ok, Forall2_length in Htally.
apply (f_equal length) in Hrows. unfold zip3 in Hrows.
rewrite !length_zip in Hrows. rewrite length_zip in Htally. simpl in Hrows. lia.
Qed.
End ShortRows.

(** X16: ballots with fewer slots than there are names are not rejected.
    If every ballot has at least [m >= 1] slots, none has more slots than
    there are names, and some ballot has exactly [m], the table is built
    from the first [m] slots of every ballot: it keeps the first [m] names
    only, while [N_candidates] still counts all the names given. *)
Theorem init_short_rows votes0 (names0 : list string) m :
  votes0 ≠ [] → (1 ≤ m)%nat →
  Forall (fun b => (m ≤ length b ≤ length names0)%nat) votes0 →
  Exists (fun b => length b = m) votes0 →
  ∃ t, VoteTable.init votes0 names0 = Ok t ∧
       VoteTable.N_candidates t = length names0 ∧
       VoteTable.names t ≡ₚ take m names0 ∧
       length (VoteTable.votes t) = length votes0 ∧
       Forall (fun b => length b = m) (VoteTable.votes t).
Proof.
intros Hv Hm Hall Hex.
destruct (init_short_rows_Ok votes0 names0 m Hv Hm Hall Hex) as (Hcols & t & Ht).
exists t. split; [done|].
destruct (init_facts _ _ _ Ht) as (_ & _ & _ & _ & _ & _ & HNc & Hlv & Hrect & _ & Hlvc).
destruct (init_tallied _ _ _ Ht) as (_ & _ & Hzip).
assert (VoteTable.names t ≡ₚ take m names0) as Hnames.
{ rewrite <- (snd_zip (VoteTable.votes_by_candidate t) (VoteTable.names t)) by lia.
  rewrite Hzip, snd_zip_take. by rewrite Hcols. }
split_and!; try done.
eapply Forall_impl; [done|]. simpl. intros b ->.
rewrite Hnames, length_take.
assert (m ≤ length names0)%nat; [|lia].
apply Exists_exists in Hex as (b' & Hb' & <-).
rewrite Forall_forall in Hall. specialize (Hall b' Hb'). lia.
Qed.

Lemma init_short_rows_witness :
  ∃ t, VoteTable.init [[Some 1; Some 2]; [Some 1]] ["A"; "B"]%string = Ok t ∧
       VoteTable.N_candidates t = 2%nat ∧
       VoteTable.names t ≡ₚ ["A"%string] ∧
       length (VoteTable.votes t) = 2%nat ∧
       Forall (fun b => length b = 1%nat) (VoteTable.votes t).
Proof.
apply (init_short_rows [[Some 1; Some 2]; [Some 1]] ["A"; "B"]%string 1).
- done.
- lia.
- repeat constructor; simpl; lia.
- apply Exists_cons_tl, Exists_cons_hd. reflexivity.
Defined.

(** ** The normal form is determined by the order of the votes *)

Section Characterisation.

Lemma cmp_vi_Eq (p q : vote * nat) : cmp_vi p q = Eq → p = q.
Proof.
destruct p as [[a|] i], q as [[b|] j]; unfold cmp_vi, cmp_pair; simpl; try done.
- destruct (Z.compare_spec a b) as [->| |]; [|done..].
  intros H%Nat.compare_eq_iff. by subst.
- intros H%Nat.compare_eq_iff. by subst.
Qed.

Lemma ranked_increasing (l : list vote) p q x y :
  ranked l !! p = Some x → ranked l !! q = Some y → (p < q)%nat → cmp_vi x y = Lt.
Proof.
intros Hp Hq Hlt.
pose proof (StronglySorted_lookup _ _ _ _ _ _ (ranked_StronglySorted l) Hp Hq Hlt) as Hle.
unfold le_of in Hle. destruct (cmp_vi x y) eqn:E; [|done..].
apply cmp_vi_Eq in E as ->. exfalso.
assert (p = q); [|lia].
apply (NoDup_lookup (snd <$> ranked l) p q y.2); [apply ranked_NoDup|..].
- by rewrite list_lookup_fmap, Hp.
- by rewrite list_lookup_fmap, Hq.
Qed.

(** The ranks keep the order of the raw values, equal values by position. *)
Lemma get_rank_order_order (l : list vote) i j a b :
  l !! i = Some (Some a) → l !! j = Some (Some b) →
  cmp_vi (Some a, i) (Some b, j) = Lt →
  ∃ ra rb, get_rank_order l !! i = Some (Some ra) ∧
           get_rank_order l !! j = Some (Some rb) ∧ ra < rb.
Proof.
intros Ha Hb Hlt.
destruct (get_rank_order_Some _ _ _ Ha) as (p & _ & Hp & Hga).
destruct (get_rank_order_Some _ _ _ Hb) as (q & _ & Hq & Hgb).
eexists _, _. split; [done|]. split; [done|].
destruct (decide (p < q)%nat) as [|Hge]; [lia|]. exfalso.
destruct (decide (p = q)) as [->|Hne].
- rewrite Hp in Hq. injection Hq as -> ->.
  unfold cmp_vi, cmp_pair in Hlt. simpl in Hlt.
  by rewrite Z.compare_refl, Nat.compare_refl in Hlt.
- pose proof (ranked_increasing l q p _ _ Hq Hp ltac:(lia)) as Hgt.
  rewrite cmp_vi_antisym, Hlt in Hgt. done.
Qed.

(** A dense list with the abstentions of [l] that orders the slots as [l]
    does is the normal form of [l]. *)
Lemma get_rank_order_unique (l d : list vote) :
  Forall2 (fun x y : vote => is_Some x ↔ is_Some y) d l →
  dense d →
  (∀ i j a b a' b',
     l !! i = Some (Some a) → l !! j = Some (Some b) →
     d !! i = Some (Some a') → d !! j = Some (Some b') →
     cmp_vi (Some a, i) (Some b, j) = Lt → a' < b') →
  get_rank_order l = d.
Proof.
intros Hsome Hd Hord.
set (dv := fun k : nat => match d !! k with Some (Some v) => v | _ => 0 end).
set (vals := (fun p : vote * nat => dv p.2) <$> ranked l).
assert (∀ q x k, ranked l !! q = Some (x, k) →
                 ∃ a a', x = Some a ∧ l !! k = Some (Some a) ∧
                         d !! k = Some (Some a') ∧ vals !! q = Some a') as Hel.
{ intros q x k Hq. apply list_elem_of_lookup_2 in Hq as Hin.
  apply elem_of_ranked in Hin as [[a ->] Hk].
  destruct (Forall2_lookup_r _ _ _ _ _ Hsome Hk) as (y & Hy & Hiff).
  destruct (proj2 Hiff ltac:(by eexists)) as [a' ->].
  exists a, a'. split_and!; [done..|].
  unfold vals. rewrite list_lookup_fmap, Hq. simpl. unfold dv. by rewrite Hy. }
assert (∀ q v, vals !! q = Some v → ∃ x k, ranked l !! q = Some (x, k)) as Hval.
{ intros q v Hq. unfold vals in Hq. rewrite list_lookup_fmap in Hq.
  destruct (ranked l !! q) as [[x k]|]; [by eexists _, _|done]. }
assert (∀ q v, vals !! q = Some v → v = Z.of_nat q + 1) as Hpos.
{ apply increasing_range.
  - intros p q x y Hx Hy Hlt.
    destruct (Hval _ _ Hx) as (ex & i & Hi). destruct (Hval _ _ Hy) as (ey & j & Hj).
    pose proof (ranked_increasing l p q _ _ Hi Hj Hlt) as Hcmp.
    destruct (Hel _ _ _ Hi) as (a & a' & -> & Hla & Hda & Hva).
    destruct (Hel _ _ _ Hj) as (b & b' & -> & Hlb & Hdb & Hvb).
    assert (x = a') as -> by congruence. assert (y = b') as -> by congruence.
    exact (Hord i j a b a' b' Hla Hlb Hda Hdb Hcmp).
  - apply Forall_forall. intros v [q Hq]%list_elem_of_lookup_1.
    destruct (Hval _ _ Hq) as (x & k & Hk).
    destruct (Hel _ _ _ Hk) as (a & a' & -> & Hla & Hda & Hva).
    assert (v = a') as -> by congruence.
    destruct Hd as [_ Hr]. rewrite Forall_forall in Hr.
    unfold vals. rewrite length_fmap, ranked_length.
    rewrite <- (Forall2_filter_length _ _ _ _ Hsome).
    apply (Hr (Some a')); [|done]. by eapply list_elem_of_lookup_2. }
apply list_eq. intros i.
destruct (l !! i) as [[a|]|] eqn:Hi.
- destruct (get_rank_order_Some _ _ _ Hi) as (r & _ & Hr & ->).
  destruct (Hel _ _ _ Hr) as (? & a' & _ & _ & Hda & Hva).
  rewrite Hda. by rewrite (Hpos _ _ Hva).
- rewrite (get_rank_order_None _ _ Hi).
  destruct (Forall2_lookup_r _ _ _ _ _ Hsome Hi) as (y & Hy & Hiff).
  rewrite Hy. destruct y as [y|]; [|done]. by destruct (proj1 Hiff ltac:(by eexists)).
- rewrite (proj2 (lookup_ge_None _ _)), (proj2 (lookup_ge_None _ _)); [done|..].
  + rewrite (Forall2_length _ _ _ Hsome). by apply lookup_ge_None.
  + rewrite get_rank_order_length. by apply lookup_ge_None.
Qed.
End Characterisation.

(** X17: [get_rank_order l] is characterised by three facts: it has ranks
    exactly where [l] has votes, it is dense, and it orders any two ranked
    slots as [l] orders their raw values, equal values by position.  No
    other list has the three. *)
Theorem get_rank_order_characterised (l d : list vote) :
  get_rank_order l = d ↔
  Forall2 (fun x y : vote => is_Some x ↔ is_Some y) d l ∧
  dense d ∧
  (∀ i j a b a' b',
     l !! i = Some (Some a) → l !! j = Some (Some b) →
     d !! i = Some (Some a') → d !! j = Some (Some b') →
     cmp_vi (Some a, i) (Some b, j) = Lt → a' < b').
Proof.
split.
- intros <-. split_and!.
  + apply get_rank_order_is_Some.
  + apply get_rank_order_dense.
  + intros i j a b a' b' Ha Hb Ha' Hb' Hlt.
    destruct (get_rank_order_order l i j a b Ha Hb Hlt) as (ra & rb & Hra & Hrb & ?).
    congruence.
- intros (Hsome & Hd & Hord). by apply get_rank_order_unique.
Qed.

(** ** What an elimination does to a ballot *)

Section GapClosing.
Context (b : list vote) (i : nat) (e : vote).
Hypothesis b_dense : dense b.
Hypothesis b_slot : b !! i = Some e.

Local Abbreviation rest := (delete i b).
Local Abbreviation shifted := (close_gap e <$> delete i b).

Lemma close_gap_is_Some (v : vote) : is_Some (close_gap e v) ↔ is_Some v.
Proof.
unfold close_gap. destruct e as [ve|], v as [x|]; try done.
destruct (ve <? x); split; by eexists.
Qed.

Lemma rest_lookup j x :
  rest !! j = Some (Some x) →
  ∃ j', b !! j' = Some (Some x) ∧ j' ≠ i ∧ (j' = if decide (j < i)%nat then j else S j) ∧
        1 ≤ x ≤ Z.of_nat (length (filter is_Some b)) ∧
        (∀ ve, e = Some ve →
               x ≠ ve ∧ 1 ≤ ve ≤ Z.of_nat (length (filter is_Some b))).
Proof.
rewrite list_lookup_delete. intros Hj.
destruct b_dense as [_ Hr]. rewrite Forall_forall in Hr.
eexists. split; [exact Hj|]. split; [case_decide; lia|]. split; [done|]. split.
- apply (Hr (Some x)); [|done]. by eapply list_elem_of_lookup_2.
- intros ve ->. split.
  + intros ->. assert ((if decide (j < i)%nat then j else S j) = i); [|case_decide; lia].
    by eapply (dense_lookup_inj b _ _ ve).
  + apply (Hr (Some ve)); [|done]. by eapply list_elem_of_lookup_2.
Qed.

Lemma shifted_lookup j y :
  shifted !! j = Some (Some y) →
  ∃ x, rest !! j = Some (Some x) ∧ close_gap e (Some x) = Some y.
Proof.
rewrite list_lookup_fmap. destruct (rest !! j) as [[x|]|]; simpl; [|by destruct e|done].
intros [= H]. by exists x.
Qed.

Lemma rest_count :
  length (filter is_Some b)
  = (match e with Some _ => 1 | None => 0 end + length (filter is_Some rest))%nat.
Proof.
rewrite (delete_Permutation b i e b_slot) at 1. rewrite filter_cons.
destruct (decide (is_Some e)) as [[z ->]|Hn]; [done|].
destruct e; [|done]. destruct Hn. by eexists.
Qed.

Lemma shifted_count : length (filter is_Some shifted) = length (filter is_Some rest).
Proof.
apply Forall2_filter_length, Forall2_fmap_l, Forall_Forall2_diag, Forall_forall.
intros v _. apply close_gap_is_Some.
Qed.

Lemma shifted_dense : dense shifted.
Proof.
split.
- apply lookup_inj_NoDup_filter. intros j1 j2 v [y ->] H1 H2.
  apply shifted_lookup in H1 as (x1 & Hx1 & Hy1).
  apply shifted_lookup in H2 as (x2 & Hx2 & Hy2).
  apply rest_lookup in Hx1 as (k1 & Hk1 & _ & -> & _ & Hne1).
  apply rest_lookup in Hx2 as (k2 & Hk2 & _ & -> & _ & Hne2).
  assert (x1 = x2) as ->.
  { unfold close_gap in Hy1, Hy2. destruct e as [ve|]; [|congruence].
    destruct (Hne1 ve eq_refl) as [? _]. destruct (Hne2 ve eq_refl) as [? _].
    destruct (Z.ltb_spec ve x1), (Z.ltb_spec ve x2); simplify_eq; lia. }
  pose proof (dense_lookup_inj b _ _ _ b_dense Hk1 Hk2) as Heq.
  repeat case_decide; lia.
- rewrite shifted_count. apply Forall_forall.
  intros v [j Hj]%list_elem_of_lookup_1 y ->.
  apply shifted_lookup in Hj as (x & Hx & Hy).
  apply rest_lookup in Hx as (k & _ & _ & _ & Hrange & Hne).
  pose proof rest_count as Hcount.
  unfold close_gap in Hy. destruct e as [ve|].
  + destruct (Hne ve eq_refl) as [? ?].
    destruct (Z.ltb_spec ve x); simplify_eq; lia.
  + simplify_eq. simpl in Hcount. lia.
Qed.

Lemma shifted_order j1 j2 a c a' c' :
  rest !! j1 = Some (Some a) → rest !! j2 = Some (Some c) →
  shifted !! j1 = Some (Some a') → shifted !! j2 = Some (Some c') →
  cmp_vi (Some a, j1) (Some c, j2) = Lt → a' < c'.
Proof.
intros Ha Hc Ha' Hc' Hlt.
apply shifted_lookup in Ha' as (x1 & Hx1 & Hy1).
apply shifted_lookup in Hc' as (x2 & Hx2 & Hy2).
assert (x1 = a) as -> by congruence. assert (x2 = c) as -> by congruence.
apply rest_lookup in Ha as (k1 & Hk1 & _ & -> & _ & Hne1).
apply rest_lookup in Hc as (k2 & Hk2 & _ & -> & _ & Hne2).
assert (a < c) as Hac.
{ unfold cmp_vi, cmp_pair in Hlt. simpl in Hlt.
  destruct (Z.compare_spec a c) as [->| |]; [|done..].
  apply Nat.compare_lt_iff in Hlt.
  pose proof (dense_lookup_inj b _ _ _ b_dense Hk1 Hk2).
  repeat case_decide; lia. }
unfold close_gap in Hy1, Hy2. destruct e as [ve|]; [|simplify_eq; lia].
destruct (Hne1 ve eq_refl) as [? _]. destruct (Hne2 ve eq_refl) as [? _].
destruct (Z.ltb_spec ve a), (Z.ltb_spec ve c); simplify_eq; lia.
Qed.

Lemma rest_normal_form : get_rank_order rest = shifted.
Proof.
apply get_rank_order_unique.
- apply Forall2_fmap_l, Forall_Forall2_diag, Forall_forall.
  intros v _. apply close_gap_is_Some.
- apply shifted_dense.
- intros j1 j2 a c a' c'. apply shifted_order.
Qed.
End GapClosing.

(** X18: re-normalising a dense ballot after a slot is removed closes the
    gap the removed rank leaves: ranks below the eliminated candidate's rank
    stay as they are, ranks above it move up by one, and nothing changes
    when the eliminated slot was an abstention. *)
Theorem elimination_closes_gap (b : list vote) (i : nat) (e : vote) :
  dense b → b !! i = Some e →
  get_rank_order (delete i b) = close_gap e <$> delete i b ∧
  (e = None → get_rank_order (delete i b) = delete i b).
Proof.
intros Hd He. split; [by apply rest_normal_form|].
intros ->. rewrite (rest_normal_form b i None Hd He).
rewrite <- (list_fmap_id (delete i b)) at 2.
apply list_fmap_ext. intros _ v _. by destruct v.
Qed.

Lemma elimination_closes_gap_witness :
  dense [Some 3; None; Some 1; Some 2] ∧
  get_rank_order (delete 2%nat [Some 3; None; Some 1; Some 2])
  = close_gap (Some 1) <$> delete 2%nat [Some 3; None; Some 1; Some 2].
Proof.
assert (dense [Some 3; None; Some 1; Some 2]) as Hd.
{ change [Some 3; None; Some 1; Some 2]
    with (get_rank_order [Some 3; None; Some 1; Some 2]).
  apply get_rank_order_dense. }
split; [exact Hd|].
apply (elimination_closes_gap [Some 3; None; Some 1; Some 2] 2 (Some 1) Hd). reflexivity.
Defined.
